(** * Hierarchy-tree construction of [packing.ipynb]

    A shallow embedding of the notebook's [generate_hierarchy_tree] and of
    the stub score function [F], followed by the properties of the tree
    builder.

    Python objects are modelled as follows.
    - A score is a Python value: [None] or a finite number.  Finite ints and
      floats are rationals and Python compares them exactly, so a number is
      a [Q].
    - [nx.DiGraph] keeps its nodes and its edges in insertion order, each
      with an attribute dictionary.
    - The coupling graph is the one object shared with the caller.  It is
      the state of the monad [M]: [F] receives it on every call and the
      caller observes it after the call.  [HT] and [unmerged_items] are
      local to the call and are passed explicitly.
    - An exception ends the computation with [Raise]. *)

From Stdlib Require Import String.
From Stdlib Require Import List Arith ZArith QArith Lia Bool Sorted.
Import ListNotations.
Local Close Scope Q_scope.
Local Open Scope nat_scope.

(** ** Python values and exceptions *)

Inductive PyVal : Type :=
| PyNone
| PyNum (q : Q).

Inductive exn : Type :=
| TypeError
| ValueError.

Inductive outcome (A : Type) : Type :=
| Return (a : A)
| Raise (e : exn)
| OutOfFuel.
Arguments Return {A} a.
Arguments Raise {A} e.
Arguments OutOfFuel {A}.

(** Attribute dictionaries of networkx nodes and edges. *)
Definition attrs : Type := list (string * PyVal).

(** [nx.Graph]: the coupling graph with its calibration data. *)
Record Graph : Type := mkGraph {
  g_nodes : list (nat * attrs);
  g_edges : list (nat * nat * attrs)
}.

(** [nx.DiGraph]: the hierarchy tree under construction. *)
Record DiGraph : Type := mkDiGraph {
  nodes : list (nat * attrs);
  edges : list (nat * nat * attrs)
}.

(** ** The monad: coupling-graph state, exceptions, fuel *)

Definition M (A : Type) : Type := Graph -> outcome A * Graph.

Definition ret {A} (a : A) : M A := fun g => (Return a, g).

Definition raise {A} (e : exn) : M A := fun g => (Raise e, g).

Definition out_of_fuel {A} : M A := fun g => (OutOfFuel, g).

Definition bind {A B} (c : M A) (k : A -> M B) : M B :=
  fun g =>
    match c g with
    | (Return a, g') => k a g'
    | (Raise e, g') => (Raise e, g')
    | (OutOfFuel, g') => (OutOfFuel, g')
    end.

Declare Scope py_scope.
Delimit Scope py_scope with py.
Notation "x <- c ;; k" := (bind c (fun x => k))
  (at level 61, c at next level, right associativity) : py_scope.
Notation "' pat <- c ;; k" := (bind c (fun x => match x with pat => k end))
  (at level 61, pat pattern, c at next level, right associativity) : py_scope.
Local Open Scope py_scope.

(** [for x in xs: s = body(x, s)] *)
Fixpoint for_each {A S : Type} (xs : list A) (body : A -> S -> M S) (s : S)
  : M S :=
  match xs with
  | [] => ret s
  | x :: xs' => s' <- body x s ;; for_each xs' body s'
  end.

(** [range(a, b)] over non-negative ints. *)
Definition range (a b : nat) : list nat := seq a (b - a).

(** [range(qubits)] for a Python int: empty when [qubits <= 0]. *)
Definition range_to (stop : Z) : list nat := range 0 (Z.to_nat stop).

(** ** Comparison of Python values *)

Definition Qgtb (a b : Q) : bool :=
  match Qcompare a b with
  | Gt => true
  | _ => false
  end.

(** [x > y]: [None] is not orderable, against a number or against itself. *)
Definition py_gt (x y : PyVal) : M bool :=
  match x, y with
  | PyNum a, PyNum b => ret (Qgtb a b)
  | _, _ => raise TypeError
  end.

(** ** networkx operations used by the builder *)

Definition node_ids (g : DiGraph) : list nat := map fst (nodes g).

Definition has_node (g : DiGraph) (n : nat) : bool :=
  existsb (Nat.eqb n) (node_ids g).

Definition has_edge (g : DiGraph) (u v : nat) : bool :=
  existsb (fun e => (fst (fst e) =? u) && (snd (fst e) =? v)) (edges g).

(** [HT.add_node(n)]: a node already present is left as it is. *)
Definition add_node (g : DiGraph) (n : nat) : DiGraph :=
  if has_node g n then g
  else mkDiGraph (nodes g ++ [(n, [])]) (edges g).

(** [HT.add_edge(u, v)]: adds the missing end points, [u] first, then the
    edge; an edge already present is left as it is. *)
Definition add_edge (g : DiGraph) (u v : nat) : DiGraph :=
  let g1 := add_node g u in
  let g2 := add_node g1 v in
  if has_edge g2 u v then g2
  else mkDiGraph (nodes g2) (edges g2 ++ [(u, v, [])]).

(** [l.remove(x)]: drops the first occurrence, [ValueError] when absent. *)
Fixpoint remove_first (l : list nat) (x : nat) : option (list nat) :=
  match l with
  | [] => None
  | y :: l' =>
      if y =? x then Some l'
      else match remove_first l' x with
           | Some l'' => Some (y :: l'')
           | None => None
           end
  end.

Definition list_remove (l : list nat) (x : nat) : M (list nat) :=
  match remove_first l x with
  | Some l' => ret l'
  | None => raise ValueError
  end.

(** ** The score function and the builder *)

(** A score function as Python sees it: it receives the two items and the
    coupling graph, and may return any value, raise, or write to the
    graph. *)
Definition score_fn : Type := nat -> nat -> M PyVal.

(** [def F(A, B, coupling_graph): pass] *)
Definition F : score_fn := fun _ _ => ret PyNone.

(** A score function that only reads the coupling graph and returns a
    number. *)
Definition pure_score (f : nat -> nat -> Graph -> Q) : score_fn :=
  fun A B g => (Return (PyNum (f A B g)), g).

(** The state of the scan: [(f_max, pair_to_merge)]. *)
Definition scan_state : Type := PyVal * option (nat * nat).

(** Body of the inner [for]. *)
Definition scan_body (Fs : score_fn) (unmerged_items : list nat)
  (i j : nat) (st : scan_state) : M scan_state :=
  let A := nth i unmerged_items 0 in
  let B := nth j unmerged_items 0 in
  f <- Fs A B ;;
  c <- py_gt f (fst st) ;;
  if c then ret (f, Some (A, B)) else ret st.

(** Step 4: the two nested [for] loops, from [f_max = -1] and
    [pair_to_merge = None]. *)
Definition find_pair (Fs : score_fn) (unmerged_items : list nat)
  : M scan_state :=
  let n := length unmerged_items in
  for_each (range 0 n)
    (fun i => for_each (range (i + 1) n) (scan_body Fs unmerged_items i))
    (PyNum (-1 # 1), None).

(** Steps 5 and 6 and the update of [unmerged_items]. *)
Definition merge_tree (HT : DiGraph) (A B : nat) : DiGraph :=
  let new_node := length (nodes HT) in
  let HT := add_edge HT new_node A in
  let HT := add_edge HT new_node B in
  add_node HT new_node.

Definition merge_items (HT : DiGraph) (unmerged_items : list nat)
  (A B : nat) : M (list nat) :=
  let new_node := length (nodes HT) in
  u1 <- list_remove unmerged_items A ;;
  u2 <- list_remove u1 B ;;
  ret (u2 ++ [new_node]).

(** Step 3: the [while] loop.  Each iteration costs one unit of fuel. *)
Fixpoint while_loop (Fs : score_fn) (fuel : nat) (HT : DiGraph)
  (unmerged_items : list nat) : M DiGraph :=
  if 1 <? length unmerged_items then
    match fuel with
    | O => out_of_fuel
    | S fuel' =>
        st <- find_pair Fs unmerged_items ;;
        match snd st with
        | None => ret HT
        | Some (A, B) =>
            u <- merge_items HT unmerged_items A B ;;
            while_loop Fs fuel' (merge_tree HT A B) u
        end
    end
  else ret HT.

(** Steps 1 and 2. *)
Definition empty_graph : DiGraph := mkDiGraph [] [].

Definition initial_tree (qubits : Z) : DiGraph :=
  fold_left add_node (range_to qubits) empty_graph.

(** The loop runs from the leaves with [fuel] iterations allowed. *)
Definition generate_hierarchy_tree_fuel (fuel : nat) (Fs : score_fn)
  (qubits : Z) : M DiGraph :=
  let HT := initial_tree qubits in
  let unmerged_items := node_ids HT in
  while_loop Fs fuel HT unmerged_items.

(** [generate_hierarchy_tree(qubits, coupling_graph)].  Every iteration
    shortens [unmerged_items] by one, so its initial length is enough fuel
    (see [while_loop_fuel_enough]). *)
Definition generate_hierarchy_tree (Fs : score_fn) (qubits : Z) : M DiGraph :=
  generate_hierarchy_tree_fuel (Z.to_nat qubits) Fs qubits.

(** ** Reading a graph *)

(** A leaf has no out-edge, a root has no in-edge. *)
Definition is_leaf (g : DiGraph) (n : nat) : bool :=
  negb (existsb (fun e => fst (fst e) =? n) (edges g)).

Definition is_root (g : DiGraph) (n : nat) : bool :=
  negb (existsb (fun e => snd (fst e) =? n) (edges g)).

Definition leaves (g : DiGraph) : list nat := filter (is_leaf g) (node_ids g).

Definition internal_nodes (g : DiGraph) : list nat :=
  filter (fun n => negb (is_leaf g n)) (node_ids g).

Definition roots (g : DiGraph) : list nat := filter (is_root g) (node_ids g).

Definition is_edge (g : DiGraph) (u v : nat) : Prop :=
  exists a, In (u, v, a) (edges g).

(** A path of at least one edge. *)
Inductive path (g : DiGraph) : nat -> nat -> Prop :=
| path_edge u v : is_edge g u v -> path g u v
| path_step u v w : is_edge g u v -> path g v w -> path g u w.

Definition reaches (g : DiGraph) (u v : nat) : Prop := u = v \/ path g u v.

Definition acyclic (g : DiGraph) : Prop := forall n, ~ path g n n.

(** The attributes stored on a node ([HT.nodes[n]]). *)
Definition node_attrs (g : DiGraph) (n : nat) : option attrs :=
  option_map snd (find (fun p => fst p =? n) (nodes g)).

(** ** The scan over a read-only numeric score, as a fold

    For a score function that only reads the graph, the nested loops of
    [find_pair] visit the pairs of [all_pairs] in order and keep the first
    pair whose score is strictly above everything seen before it. *)

Fixpoint all_pairs (l : list nat) : list (nat * nat) :=
  match l with
  | [] => []
  | a :: l' => map (pair a) l' ++ all_pairs l'
  end.

Definition scan_step (f : nat -> nat -> Graph -> Q) (g : Graph)
  (st : Q * option (nat * nat)) (p : nat * nat) : Q * option (nat * nat) :=
  let q := f (fst p) (snd p) g in
  if Qgtb q (fst st) then (q, Some p) else st.

Definition scan_pairs (f : nat -> nat -> Graph -> Q) (g : Graph)
  (ps : list (nat * nat)) (st : Q * option (nat * nat))
  : Q * option (nat * nat) :=
  fold_left (scan_step f g) ps st.

(** Lexicographic order on pairs of node identifiers. *)
Definition lex_lt (p q : nat * nat) : Prop :=
  fst p < fst q \/ (fst p = fst q /\ snd p < snd q).

Definition lex_le (p q : nat * nat) : Prop := p = q \/ lex_lt p q.

(** ** Iterations of the [while] loop *)

(** The loop state: [HT] and [unmerged_items]. *)
Record loop_state : Type := mkState {
  tree : DiGraph;
  items : list nat
}.

Definition initial_state (qubits : Z) : loop_state :=
  mkState (initial_tree qubits) (node_ids (initial_tree qubits)).

(** One iteration that merges: the loop condition holds, the scan selects
    a pair, and the pair is merged. *)
Inductive merge_step (f : nat -> nat -> Graph -> Q) (g : Graph)
  : loop_state -> loop_state -> Prop :=
| merge_step_intro HT its fmax A B its' :
    1 < length its ->
    find_pair (pure_score f) its g = (Return (fmax, Some (A, B)), g) ->
    merge_items HT its A B g = (Return its', g) ->
    merge_step f g (mkState HT its) (mkState (merge_tree HT A B) its').

(** The states at the head of the loop, after [k] merging iterations. *)
Inductive iteration (f : nat -> nat -> Graph -> Q) (g : Graph) (qubits : Z)
  : nat -> loop_state -> Prop :=
| iteration_first : iteration f g qubits 0 (initial_state qubits)
| iteration_next k s s' :
    iteration f g qubits k s -> merge_step f g s s' ->
    iteration f g qubits (S k) s'.

(** ** What the specification asks of the result *)

(** The last-created node. *)
Definition last_node (g : DiGraph) : nat := last (node_ids g) 0.

(** The conditions the specification lists for a hierarchy tree over [N]
    qubits: the leaves are the qubits, there are [N - 1] internal nodes,
    there is no cycle, the last-created node is the only root and every
    node is reached from it.  They do not bound the parents or the
    children of a node; [hierarchy_tree] below adds that. *)
Definition is_hierarchy_tree (N : nat) (g : DiGraph) : Prop :=
  leaves g = seq 0 N /\
  length (internal_nodes g) = N - 1 /\
  acyclic g /\
  roots g = [last_node g] /\
  (forall n, In n (node_ids g) -> reaches g (last_node g) n).

(** A node stores a score when one of its attributes holds it. *)
Definition stores_score (g : DiGraph) (n : nat) (q : Q) : Prop :=
  exists a k q', node_attrs g n = Some a /\ In (k, PyNum q') a /\ (q' == q)%Q.

(** No attribute on any node or edge. *)
Definition no_attrs (g : DiGraph) : Prop :=
  (forall n a, In (n, a) (nodes g) -> a = []) /\
  (forall u v a, In (u, v, a) (edges g) -> a = []).

(** A computation that leaves the coupling graph as it found it. *)
Definition reads_only {A} (c : M A) : Prop := forall g, snd (c g) = g.

Definition score_reads_only (Fs : score_fn) : Prop :=
  forall A B, reads_only (Fs A B).

(** The score of a pair under a read-only numeric score function. *)
Definition score (f : nat -> nat -> Graph -> Q) (g : Graph) (p : nat * nat)
  : Q := f (fst p) (snd p) g.

(** [l] without [x]: what [l.remove(x)] leaves of a list without repetition. *)
Definition drop (x : nat) (l : list nat) : list nat :=
  filter (fun y => negb (y =? x)) l.

(** Nodes [0 .. k-1], none with an attribute. *)
Definition blank (n : nat) : nat * attrs := (n, []).

Definition blank_nodes (k : nat) : list (nat * attrs) := map blank (seq 0 k).
Arguments blank_nodes : simpl never.

(** ** The invariant of the [while] loop *)

Record tree_inv (N : nat) (s : loop_state) : Prop := {
  inv_nodes : nodes (tree s) = blank_nodes (length (nodes (tree s)));
  inv_count : length (nodes (tree s)) + length (items s) = 2 * N;
  inv_qubits : N <= length (nodes (tree s));
  inv_sorted : StronglySorted lt (items s);
  inv_roots : roots (tree s) = items s;
  inv_edges : forall u v a, In (u, v, a) (edges (tree s)) ->
      v < u /\ N <= u < length (nodes (tree s)) /\ a = [];
  inv_leaves : leaves (tree s) = seq 0 N;
  inv_internal :
    internal_nodes (tree s) = seq N (length (nodes (tree s)) - N);
  inv_reach : forall n, n < length (nodes (tree s)) ->
      exists r, In r (items s) /\ reaches (tree s) r n
}.

(** A computation that does not run out of fuel. *)
Definition terminates {A} (c : M A) : Prop :=
  forall g, fst (c g) <> OutOfFuel.

(** ** Example inputs *)

(** A coupling graph with no qubit at all. *)
Definition cg0 : Graph := mkGraph [] [].

(** Four qubits and no connection. *)
Definition isolated4 : Graph :=
  mkGraph [(0, []); (1, []); (2, []); (3, [])] [].

(** Three qubits with calibration data, qubits 0 and 1 connected. *)
Definition one_link : Graph :=
  mkGraph
    [(0, [("quality"%string, PyNum (9 # 10))]);
     (1, [("quality"%string, PyNum (8 # 10))]);
     (2, [("quality"%string, PyNum (7 # 10))])]
    [(0, 1, [("quality"%string, PyNum (95 # 100))])].

(** The same score for every pair. *)
Definition const_score (m : Q) : nat -> nat -> Graph -> Q := fun _ _ _ => m.

Definition connected_in (g : Graph) (A B : nat) : bool :=
  existsb (fun e => ((fst (fst e) =? A) && (snd (fst e) =? B))
                    || ((fst (fst e) =? B) && (snd (fst e) =? A)))
    (g_edges g).

(** A score read from the coupling graph: [0] for two connected items,
    [-2] otherwise. *)
Definition link_score : nat -> nat -> Graph -> Q :=
  fun A B g => if connected_in g A B then 0%Q else (-2 # 1)%Q.

(** The tree of four qubits merged in the order (0,1), (2,3), (4,5). *)
Definition tree4 : DiGraph :=
  mkDiGraph
    [(0, []); (1, []); (2, []); (3, []); (4, []); (5, []); (6, [])]
    [(4, 0, []); (4, 1, []); (5, 2, []); (5, 3, []); (6, 4, []); (6, 5, [])].

(** ** Forests *)

(** The children of a node, in the order of their edges. *)
Definition successors (g : DiGraph) (n : nat) : list nat :=
  map (fun e => snd (fst e)) (filter (fun e => fst (fst e) =? n) (edges g)).

(** No node has two parents. *)
Definition parent_unique (g : DiGraph) : Prop :=
  forall u u' v, is_edge g u v -> is_edge g u' v -> u = u'.

(** The nodes below [N] have no child; every other node has exactly two,
    the left one smaller than the right one, both smaller than the node. *)
Definition binary_from (N : nat) (g : DiGraph) : Prop :=
  forall n, In n (node_ids g) ->
    (n < N /\ successors g n = []) \/
    (N <= n /\ exists A B, successors g n = [A; B] /\ A < B < n).

(** A forest over [N] qubits after [k] merges. *)
Record forest (N k : nat) (g : DiGraph) : Prop := {
  forest_nodes : node_ids g = seq 0 (N + k);
  forest_leaves : leaves g = seq 0 N;
  forest_internal : internal_nodes g = seq N k;
  forest_roots : length (roots g) + k = N;
  forest_merges : k <= N - 1;
  forest_down : forall u v, is_edge g u v -> v < u;
  forest_acyclic : acyclic g;
  forest_parent : parent_unique g;
  forest_binary : binary_from N g;
  forest_cover : forall n, In n (node_ids g) ->
      exists r, In r (roots g) /\ reaches g r n;
  forest_disjoint : forall n r r',
      In r (roots g) -> In r' (roots g) ->
      reaches g r n -> reaches g r' n -> r = r'
}.

(** What the loop keeps beside [tree_inv]. *)
Record forest_inv (N : nat) (s : loop_state) : Prop := {
  fi_parent : parent_unique (tree s);
  fi_binary : binary_from N (tree s);
  fi_nonempty : length (items s) = 0 -> N = 0
}.

(** ** Score functions with effects *)

(** A score function that always returns a number; it may write to the
    coupling graph. *)
Definition numeric (Fs : score_fn) : Prop :=
  forall A B g, exists q g', Fs A B g = (Return (PyNum q), g').

(** The score function that returns [f A B] and leaves the effect
    [eff A B] on the coupling graph. *)
Definition effectful (f : nat -> nat -> Q)
  (eff : nat -> nat -> Graph -> Graph) : score_fn :=
  fun A B g => (Return (PyNum (f A B)), eff A B g).

(** An effect that records the call: it adds the connection [(A, B)] in
    front of the connections of the coupling graph. *)
Definition record_call (A B : nat) (g : Graph) : Graph :=
  mkGraph (g_nodes g) ((A, B, []) :: g_edges g).

(** [f_max] is a number all along the scan. *)
Definition max_is_number (st : scan_state) : Prop :=
  exists q, fst st = PyNum q.

(** A numeric score that does not look at the coupling graph, as a score
    over a graph. *)
Definition ignore_graph (f : nat -> nat -> Q) : nat -> nat -> Graph -> Q :=
  fun A B _ => f A B.

(** The effects of the calls on the pairs [ps], first to last. *)
Definition effects (eff : nat -> nat -> Graph -> Graph)
  (ps : list (nat * nat)) (g : Graph) : Graph :=
  fold_left (fun h p => eff (fst p) (snd p) h) ps g.

(** The number of pairs scanned among [n] items, and the number of pairs
    scanned while [n] items are merged down to one. *)
Fixpoint pair_count (n : nat) : nat :=
  match n with
  | O => 0
  | S m => m + pair_count m
  end.

Fixpoint total_calls (n : nat) : nat :=
  match n with
  | O => 0
  | S m => pair_count (S m) + total_calls m
  end.

(** As [link_score], with other values in the same order and on the same
    sides of [-1]. *)
Definition link_score_wide : nat -> nat -> Graph -> Q :=
  fun A B g => if connected_in g A B then (10 # 1)%Q else (-3 # 1)%Q.

(** A hierarchy tree in full: the conditions of [is_hierarchy_tree] and
    those of a binary forest with [N - 1] merges (one parent at most, two
    children for every internal node). *)
Definition hierarchy_tree (N : nat) (g : DiGraph) : Prop :=
  is_hierarchy_tree N g /\ forest N (N - 1) g.

(** The pairs merged by the loop, first to last, and the state at the head
    of the loop after them. *)
Inductive merges_of (f : nat -> nat -> Graph -> Q) (g : Graph) (qubits : Z)
  : list (nat * nat) -> loop_state -> Prop :=
| merges_none : merges_of f g qubits [] (initial_state qubits)
| merges_next tr s fmax A B its' :
    merges_of f g qubits tr s ->
    1 < length (items s) ->
    find_pair (pure_score f) (items s) g = (Return (fmax, Some (A, B)), g) ->
    merge_items (tree s) (items s) A B g = (Return its', g) ->
    merges_of f g qubits (tr ++ [(A, B)])
      (mkState (merge_tree (tree s) A B) its').

(** ** Monad laws used below *)

Lemma bind_Return {A B} (c : M A) (k : A -> M B) g a g' :
  c g = (Return a, g') -> bind c k g = k a g'.
Proof. intros H. unfold bind. rewrite H. reflexivity. Qed.

Lemma bind_Raise {A B} (c : M A) (k : A -> M B) g e g' :
  c g = (Raise e, g') -> bind c k g = (Raise e, g').
Proof. intros H. unfold bind. rewrite H. reflexivity. Qed.

Lemma bind_inv_Return {A B} (c : M A) (k : A -> M B) g b g' :
  bind c k g = (Return b, g') ->
  exists a g1, c g = (Return a, g1) /\ k a g1 = (Return b, g').
Proof.
  unfold bind. destruct (c g) as [[a | e |] g1]; intros H; try discriminate.
  exists a, g1. split; [reflexivity | exact H].
Qed.

(** ** The coupling graph is only read *)

Lemma reads_only_ret {A} (a : A) : reads_only (ret a).
Proof. intros g. reflexivity. Qed.

Lemma reads_only_raise {A} e : reads_only (@raise A e).
Proof. intros g. reflexivity. Qed.

Lemma reads_only_bind {A B} (c : M A) (k : A -> M B) :
  reads_only c -> (forall a, reads_only (k a)) -> reads_only (bind c k).
Proof.
  intros Hc Hk g. unfold bind. specialize (Hc g).
  destruct (c g) as [[a | e |] g1]; simpl in *; subst; auto.
  apply Hk.
Qed.

Lemma reads_only_for_each {A S} (xs : list A) (body : A -> S -> M S) :
  (forall x s, reads_only (body x s)) ->
  forall s, reads_only (for_each xs body s).
Proof.
  intros Hb. induction xs as [| x xs IH]; intros s; simpl.
  - apply reads_only_ret.
  - apply reads_only_bind; auto.
Qed.

Lemma reads_only_py_gt x y : reads_only (py_gt x y).
Proof.
  destruct x, y; simpl; auto using reads_only_ret, @reads_only_raise.
Qed.

Lemma reads_only_list_remove l x : reads_only (list_remove l x).
Proof.
  unfold list_remove. destruct (remove_first l x);
    auto using @reads_only_ret, @reads_only_raise.
Qed.

Lemma reads_only_find_pair Fs l :
  score_reads_only Fs -> reads_only (find_pair Fs l).
Proof.
  intros HF. unfold find_pair.
  apply reads_only_for_each. intros i s.
  apply reads_only_for_each. intros j s'. unfold scan_body.
  apply reads_only_bind; [apply HF |]. intros f.
  apply reads_only_bind; [apply reads_only_py_gt |]. intros c.
  destruct c; apply reads_only_ret.
Qed.

Lemma reads_only_merge_items HT l A B : reads_only (merge_items HT l A B).
Proof.
  unfold merge_items.
  apply reads_only_bind; [apply reads_only_list_remove |]. intros u1.
  apply reads_only_bind; [apply reads_only_list_remove |]. intros u2.
  apply reads_only_ret.
Qed.

Lemma reads_only_while_loop Fs fuel :
  score_reads_only Fs -> forall HT l, reads_only (while_loop Fs fuel HT l).
Proof.
  intros HF. induction fuel as [| fuel IH]; intros HT l; simpl.
  - destruct (1 <? length l); intros g; reflexivity.
  - destruct (1 <? length l); [| apply reads_only_ret].
    apply reads_only_bind; [apply reads_only_find_pair; assumption |].
    intros [fm [[A B] |]]; simpl; [| apply reads_only_ret].
    apply reads_only_bind; [apply reads_only_merge_items |]. intros u. apply IH.
Qed.

Lemma reads_only_score_F : score_reads_only F.
Proof. intros A B g. reflexivity. Qed.

Lemma reads_only_pure_score f : score_reads_only (pure_score f).
Proof. intros A B g. reflexivity. Qed.

(** ** The nested loops visit [all_pairs] in order *)

Section Scan.
Variable f : nat -> nat -> Graph -> Q.
Variable g : Graph.

Lemma scan_body_pure l i j q p :
  scan_body (pure_score f) l i j (PyNum q, p) g =
  (Return (PyNum (fst (scan_step f g (q, p) (nth i l 0, nth j l 0))),
           snd (scan_step f g (q, p) (nth i l 0, nth j l 0))), g).
Proof.
  unfold scan_body, scan_step, pure_score, bind, py_gt, ret. simpl.
  destruct (Qgtb _ q); reflexivity.
Qed.

Lemma inner_for_pure l i : forall suf pre q p,
  l = pre ++ suf ->
  for_each (seq (length pre) (length suf)) (scan_body (pure_score f) l i)
    (PyNum q, p) g =
  (Return (PyNum (fst (scan_pairs f g (map (pair (nth i l 0)) suf) (q, p))),
           snd (scan_pairs f g (map (pair (nth i l 0)) suf) (q, p))), g).
Proof.
  induction suf as [| b suf IH]; intros pre q p Hl.
  - reflexivity.
  - simpl seq. simpl for_each.
    erewrite bind_Return by apply scan_body_pure.
    assert (Hb : nth (length pre) l 0 = b).
    { subst l. rewrite app_nth2, Nat.sub_diag by lia. reflexivity. }
    rewrite Hb.
    specialize (IH (pre ++ [b])). rewrite length_app in IH. simpl in IH.
    rewrite Nat.add_1_r in IH.
    destruct (scan_step f g (q, p) (nth i l 0, b)) as [q' p'] eqn:E.
    simpl fst. simpl snd.
    rewrite IH by (rewrite <- app_assoc; exact Hl).
    simpl. unfold scan_pairs. simpl. rewrite E. reflexivity.
Qed.

Lemma outer_for_pure l : forall suf pre q p,
  l = pre ++ suf ->
  for_each (seq (length pre) (length suf))
    (fun i => for_each (range (i + 1) (length l))
                (scan_body (pure_score f) l i))
    (PyNum q, p) g =
  (Return (PyNum (fst (scan_pairs f g (all_pairs suf) (q, p))),
           snd (scan_pairs f g (all_pairs suf) (q, p))), g).
Proof.
  induction suf as [| a suf IH]; intros pre q p Hl.
  - reflexivity.
  - simpl seq. simpl for_each.
    assert (Ha : nth (length pre) l 0 = a).
    { subst l. rewrite app_nth2, Nat.sub_diag by lia. reflexivity. }
    assert (Hr : range (length pre + 1) (length l) =
                 seq (length (pre ++ [a])) (length suf)).
    { unfold range. rewrite length_app. simpl. f_equal.
      subst l. rewrite length_app. simpl. lia. }
    rewrite Hr.
    erewrite bind_Return
      by (apply inner_for_pure; rewrite <- app_assoc; exact Hl).
    rewrite Ha.
    specialize (IH (pre ++ [a])). rewrite length_app in IH. simpl in IH.
    rewrite Nat.add_1_r in IH.
    destruct (scan_pairs f g (map (pair a) suf) (q, p)) as [q' p'] eqn:E.
    simpl fst. simpl snd.
    rewrite IH by (rewrite <- app_assoc; exact Hl).
    simpl all_pairs. unfold scan_pairs in *. rewrite fold_left_app, E.
    reflexivity.
Qed.

Lemma find_pair_pure l :
  find_pair (pure_score f) l g =
  (Return (PyNum (fst (scan_pairs f g (all_pairs l) ((-1 # 1)%Q, None))),
           snd (scan_pairs f g (all_pairs l) ((-1 # 1)%Q, None))), g).
Proof.
  unfold find_pair, range. rewrite Nat.sub_0_r.
  apply (outer_for_pure l l []). reflexivity.
Qed.

(** *** What the fold keeps *)

Lemma Qgtb_true a b : Qgtb a b = true <-> (b < a)%Q.
Proof.
  unfold Qgtb. rewrite Qgt_alt. destruct (a ?= b)%Q; split; congruence.
Qed.

Lemma Qgtb_false a b : Qgtb a b = false <-> (a <= b)%Q.
Proof.
  unfold Qgtb. rewrite Qle_alt.
  destruct (a ?= b)%Q; split; congruence.
Qed.

Lemma scan_pairs_cons y ps st :
  scan_pairs f g (y :: ps) st = scan_pairs f g ps (scan_step f g st y).
Proof. reflexivity. Qed.

Lemma scan_step_cases q p y :
  (scan_step f g (q, p) y = (score f g y, Some y) /\ (q < score f g y)%Q) \/
  (scan_step f g (q, p) y = (q, p) /\ (score f g y <= q)%Q).
Proof.
  unfold scan_step, score. simpl.
  destruct (Qgtb (f (fst y) (snd y) g) q) eqn:E.
  - left. split; [reflexivity | apply Qgtb_true; exact E].
  - right. split; [reflexivity | apply Qgtb_false; exact E].
Qed.

(** The bound kept by the fold dominates the start and every pair seen. *)
Lemma scan_pairs_bound ps : forall q p,
  (q <= fst (scan_pairs f g ps (q, p)))%Q /\
  (forall x, In x ps -> (score f g x <= fst (scan_pairs f g ps (q, p)))%Q).
Proof.
  induction ps as [| y ps IH]; intros q p.
  - split; [apply Qle_refl | contradiction].
  - rewrite scan_pairs_cons.
    destruct (scan_step_cases q p y) as [[-> E] | [-> E]].
    + destruct (IH (score f g y) (Some y)) as [H1 H2].
      split.
      * eapply Qle_trans; [apply Qlt_le_weak; exact E | exact H1].
      * intros x [<- | Hx]; [exact H1 | auto].
    + destruct (IH q p) as [H1 H2].
      split; [exact H1 |].
      intros x [<- | Hx]; [| auto].
      eapply Qle_trans; [exact E | exact H1].
Qed.

(** Nothing is selected when no score exceeds the start. *)
Lemma scan_pairs_keep ps : forall q p,
  (forall x, In x ps -> (score f g x <= q)%Q) ->
  scan_pairs f g ps (q, p) = (q, p).
Proof.
  induction ps as [| y ps IH]; intros q p H; [reflexivity |].
  rewrite scan_pairs_cons.
  destruct (scan_step_cases q p y) as [[_ E] | [-> _]].
  - exfalso. apply (Qlt_not_le _ _ E). apply H. left. reflexivity.
  - apply IH. intros x Hx. apply H. right. exact Hx.
Qed.

(** A selected pair is split off the list: nothing before it reaches its
    score, nothing after it exceeds its score. *)
Lemma scan_pairs_select ps : forall q p q' x,
  scan_pairs f g ps (q, p) = (q', Some x) ->
  (p = Some x /\ q' = q /\ forall y, In y ps -> (score f g y <= q)%Q) \/
  (exists before after,
      ps = before ++ x :: after /\ q' = score f g x /\ (q < score f g x)%Q /\
      (forall y, In y before -> (score f g y < score f g x)%Q) /\
      (forall y, In y after -> (score f g y <= score f g x)%Q)).
Proof.
  induction ps as [| y ps IH]; intros q p q' x H.
  - inversion H; subst. left. repeat split. contradiction.
  - rewrite scan_pairs_cons in H.
    destruct (scan_step_cases q p y) as [[E1 E] | [E1 E]];
      rewrite E1 in H;
      destruct (IH _ _ _ _ H)
        as [(Hp & Hq & Hall) | (b & a & Hps & Hq & Hlt & Hb & Ha)].
    + inversion Hp; subst. right. exists [], ps.
      repeat split; auto. intros z [].
    + right. exists (y :: b), a. subst ps.
      repeat split; auto.
      * eapply Qlt_trans; eassumption.
      * intros z [<- | Hz]; [exact Hlt | auto].
    + left. repeat split; auto. intros z [<- | Hz]; auto.
    + right. exists (y :: b), a. subst ps.
      repeat split; auto.
      intros z [<- | Hz]; [| auto].
      eapply Qle_lt_trans; eassumption.
Qed.
End Scan.

(** ** Lists: sorted items, pairs in lexicographic order, [remove] *)

Lemma remove_first_drop l x :
  NoDup l -> In x l -> remove_first l x = Some (drop x l).
Proof.
  induction l as [| y l IH]; intros Hnd Hin; [contradiction |].
  inversion Hnd as [| ? ? Hy Hl]; subst. simpl.
  destruct (Nat.eqb_spec y x) as [-> | Hne]; simpl.
  - f_equal. symmetry. unfold drop. apply forallb_filter_id.
    apply forallb_forall. intros z Hz. apply negb_true_iff, Nat.eqb_neq.
    intros ->. contradiction.
  - destruct Hin as [-> | Hin]; [congruence |].
    rewrite (IH Hl Hin). reflexivity.
Qed.

Lemma drop_In x l y : In y (drop x l) <-> In y l /\ y <> x.
Proof.
  unfold drop. rewrite filter_In, negb_true_iff, Nat.eqb_neq. reflexivity.
Qed.

Lemma drop_length x l :
  NoDup l -> In x l -> S (length (drop x l)) = length l.
Proof.
  induction l as [| y l IH]; intros Hnd Hin; [contradiction |].
  inversion Hnd as [| ? ? Hy Hl]; subst. unfold drop in *. simpl.
  destruct (Nat.eqb_spec y x) as [-> | Hne]; simpl.
  - f_equal. f_equal. apply forallb_filter_id.
    apply forallb_forall. intros z Hz. apply negb_true_iff, Nat.eqb_neq.
    intros ->. contradiction.
  - destruct Hin as [-> | Hin]; [congruence |]. f_equal. auto.
Qed.

Lemma StronglySorted_filter {A} (R : A -> A -> Prop) (p : A -> bool) l :
  StronglySorted R l -> StronglySorted R (filter p l).
Proof.
  induction 1 as [| a l Hl IH Ha]; simpl; [constructor |].
  destruct (p a); [| exact IH].
  constructor; [exact IH |].
  rewrite Forall_forall in *. intros x Hx. apply Ha.
  apply filter_In in Hx. tauto.
Qed.

Lemma StronglySorted_app {A} (R : A -> A -> Prop) l1 l2 :
  StronglySorted R l1 -> StronglySorted R l2 ->
  (forall x y, In x l1 -> In y l2 -> R x y) ->
  StronglySorted R (l1 ++ l2).
Proof.
  induction 1 as [| a l Hl IH Ha]; intros H2 Hc; simpl; [exact H2 |].
  constructor.
  - apply IH; [exact H2 |]. intros x y Hx Hy. apply Hc; [right |]; assumption.
  - rewrite Forall_forall in *. intros x Hx. apply in_app_or in Hx.
    destruct Hx as [Hx | Hx]; [auto | apply Hc; [left; reflexivity | exact Hx]].
Qed.

Lemma StronglySorted_after {A} (R : A -> A -> Prop) l1 x l2 :
  StronglySorted R (l1 ++ x :: l2) -> forall y, In y l2 -> R x y.
Proof.
  induction l1 as [| a l1 IH]; simpl; intros H y Hy.
  - inversion H as [| ? ? _ Hall]; subst.
    rewrite Forall_forall in Hall. auto.
  - inversion H; subst. auto.
Qed.

Lemma StronglySorted_lt_NoDup l : StronglySorted lt l -> NoDup l.
Proof.
  induction 1 as [| a l Hl IH Ha]; constructor; [| exact IH].
  intros Hin. rewrite Forall_forall in Ha. specialize (Ha a Hin). lia.
Qed.

Lemma StronglySorted_seq a n : StronglySorted lt (seq a n).
Proof.
  revert a. induction n as [| n IH]; intros a; simpl; constructor.
  - apply IH.
  - apply Forall_forall. intros x Hx. apply in_seq in Hx. lia.
Qed.

Lemma all_pairs_In_items l a b :
  In (a, b) (all_pairs l) -> In a l /\ In b l.
Proof.
  induction l as [| c l IH]; simpl; [contradiction |].
  intros H. apply in_app_or in H. destruct H as [H | H].
  - apply in_map_iff in H. destruct H as (x & Hx & Hin).
    inversion Hx; subst. auto.
  - destruct (IH H). auto.
Qed.

Lemma all_pairs_In_sorted l a b :
  StronglySorted lt l ->
  (In (a, b) (all_pairs l) <-> In a l /\ In b l /\ a < b).
Proof.
  induction 1 as [| c l Hl IH Hc]; simpl; [tauto |].
  rewrite Forall_forall in Hc. rewrite in_app_iff, in_map_iff, IH. split.
  - intros [(x & Hx & Hin) | (Ha & Hb & Hab)].
    + inversion Hx; subst. auto.
    + auto.
  - intros ([-> | Ha] & [-> | Hb] & Hab).
    + lia.
    + left. exists b. auto.
    + specialize (Hc a Ha). lia.
    + right. auto.
Qed.

Lemma all_pairs_sorted l :
  StronglySorted lt l -> StronglySorted lex_lt (all_pairs l).
Proof.
  induction 1 as [| c l Hl IH Hc]; simpl; [constructor |].
  rewrite Forall_forall in Hc. apply StronglySorted_app.
  - clear IH Hc. induction Hl as [| d l Hl IH Hd]; simpl; constructor.
    + exact IH.
    + rewrite Forall_forall in *. intros x Hx.
      apply in_map_iff in Hx. destruct Hx as (y & <- & Hy).
      right. simpl. split; [reflexivity | auto].
  - exact IH.
  - intros x [a b] Hx Hy. apply in_map_iff in Hx. destruct Hx as (y & <- & _).
    apply all_pairs_In_items in Hy. left. simpl. apply Hc. tauto.
Qed.

Lemma lex_le_antisym p q : lex_le p q -> lex_le q p -> p = q.
Proof.
  intros [E | H1] [E' | H2]; auto.
  destruct p as [a b], q as [c d]. unfold lex_lt in *. simpl in *. lia.
Qed.

Lemma all_pairs_nonempty l : 1 < length l -> all_pairs l <> [].
Proof.
  destruct l as [| a [| b l]]; simpl; intros H; try lia. discriminate.
Qed.

(** ** The graph operations on a tree under construction *)

Lemma blank_nodes_ids k : map fst (blank_nodes k) = seq 0 k.
Proof.
  unfold blank_nodes. rewrite map_map. simpl. apply map_id.
Qed.

Lemma blank_nodes_length k : length (blank_nodes k) = k.
Proof. unfold blank_nodes. rewrite length_map, length_seq. reflexivity. Qed.

Lemma blank_nodes_S k : blank_nodes (S k) = blank_nodes k ++ [blank k].
Proof. unfold blank_nodes. rewrite seq_S, map_app. reflexivity. Qed.

Lemma has_node_In g n : has_node g n = true <-> In n (node_ids g).
Proof.
  unfold has_node. rewrite existsb_exists. split.
  - intros (x & Hx & E). apply Nat.eqb_eq in E. subst. exact Hx.
  - intros H. exists n. split; [exact H | apply Nat.eqb_refl].
Qed.

Lemma has_node_blank k e n :
  has_node (mkDiGraph (blank_nodes k) e) n = (n <? k).
Proof.
  apply eq_true_iff_eq. rewrite has_node_In, Nat.ltb_lt.
  unfold node_ids. simpl. rewrite blank_nodes_ids, in_seq. lia.
Qed.

Lemma add_node_blank k e n :
  n <= k ->
  add_node (mkDiGraph (blank_nodes k) e) n =
  mkDiGraph (blank_nodes (if n <? k then k else S k)) e.
Proof.
  intros H. unfold add_node. rewrite has_node_blank.
  destruct (Nat.ltb_spec n k); [reflexivity |].
  assert (n = k) by lia. subst. simpl. rewrite blank_nodes_S. reflexivity.
Qed.

Lemma initial_tree_eq qubits :
  initial_tree qubits = mkDiGraph (blank_nodes (Z.to_nat qubits)) [].
Proof.
  unfold initial_tree, range_to, range. rewrite Nat.sub_0_r.
  induction (Z.to_nat qubits) as [| n IH]; [reflexivity |].
  rewrite seq_S, fold_left_app, IH. simpl.
  rewrite add_node_blank by lia. rewrite Nat.ltb_irrefl. reflexivity.
Qed.

Lemma has_edge_false g u v :
  (forall x y a, In (x, y, a) (edges g) -> x <> u \/ y <> v) ->
  has_edge g u v = false.
Proof.
  intros H. unfold has_edge. apply not_true_is_false. intros E.
  apply existsb_exists in E. destruct E as ([[x y] a] & Hin & E). simpl in E.
  apply andb_true_iff in E. destruct E as [E1 E2].
  apply Nat.eqb_eq in E1, E2. subst. destruct (H _ _ _ Hin); congruence.
Qed.

Lemma add_node_upto k k' e :
  k <= k' <= S k ->
  add_node (mkDiGraph (blank_nodes k') e) k = mkDiGraph (blank_nodes (S k)) e.
Proof.
  intros H. rewrite add_node_blank by lia.
  destruct (Nat.ltb_spec k k'); do 2 f_equal; lia.
Qed.

Lemma add_edge_fresh k k' e v :
  k <= k' <= S k -> v < k ->
  (forall x y a, In (x, y, a) e -> x <> k \/ y <> v) ->
  add_edge (mkDiGraph (blank_nodes k') e) k v =
  mkDiGraph (blank_nodes (S k)) (e ++ [(k, v, [])]).
Proof.
  intros Hk Hv He. unfold add_edge. rewrite (add_node_upto k k') by exact Hk.
  rewrite add_node_blank by lia.
  replace (v <? S k) with true by (symmetry; apply Nat.ltb_lt; lia).
  rewrite has_edge_false by exact He. reflexivity.
Qed.

(** Merging two distinct existing nodes appends the new node and its two
    edges. *)
Lemma merge_tree_eq k e A B :
  A < k -> B < k -> A <> B ->
  (forall x y a, In (x, y, a) e -> x < k) ->
  merge_tree (mkDiGraph (blank_nodes k) e) A B =
  mkDiGraph (blank_nodes (S k)) (e ++ [(k, A, []); (k, B, [])]).
Proof.
  intros HA HB HAB He. unfold merge_tree. simpl nodes.
  rewrite blank_nodes_length.
  rewrite (add_edge_fresh k k e A); [| lia | exact HA |].
  2:{ intros x y a Hin. left. specialize (He _ _ _ Hin). lia. }
  rewrite (add_edge_fresh k (S k) _ B); [| lia | exact HB |].
  2:{ intros x y a Hin. apply in_app_or in Hin.
      destruct Hin as [Hin | [Hin | []]].
      - left. specialize (He _ _ _ Hin). lia.
      - inversion Hin; subst. right. congruence. }
  rewrite (add_node_upto k (S k)) by lia.
  rewrite <- app_assoc. reflexivity.
Qed.

Lemma no_attrs_add_node g n : no_attrs g -> no_attrs (add_node g n).
Proof.
  intros [Hn He]. unfold add_node.
  destruct (has_node g n); [split; assumption |].
  split; simpl; [| exact He].
  intros m a Hin. apply in_app_or in Hin. destruct Hin as [Hin | [Hin | []]].
  - eauto.
  - inversion Hin. reflexivity.
Qed.

Lemma no_attrs_add_edge g u v : no_attrs g -> no_attrs (add_edge g u v).
Proof.
  intros H. unfold add_edge.
  assert (H2 : no_attrs (add_node (add_node g u) v))
    by auto using no_attrs_add_node.
  destruct (has_edge _ u v); [exact H2 |].
  destruct H2 as [Hn He]. split; simpl; [exact Hn |].
  intros x y a Hin. apply in_app_or in Hin. destruct Hin as [Hin | [Hin | []]].
  - eauto.
  - inversion Hin. reflexivity.
Qed.

Lemma no_attrs_merge_tree g A B : no_attrs g -> no_attrs (merge_tree g A B).
Proof.
  intros H. unfold merge_tree.
  auto using no_attrs_add_node, no_attrs_add_edge.
Qed.

Lemma no_attrs_initial_tree qubits : no_attrs (initial_tree qubits).
Proof.
  unfold initial_tree.
  assert (H : no_attrs empty_graph) by (split; simpl; intros; contradiction).
  revert H. generalize empty_graph.
  induction (range_to qubits) as [| n l IH]; intros g H; simpl; [exact H |].
  apply IH. apply no_attrs_add_node. exact H.
Qed.

(** Paths only go down in node identifiers when every edge does. *)
Lemma path_decreasing g u v :
  (forall x y a, In (x, y, a) (edges g) -> y < x) -> path g u v -> v < u.
Proof.
  intros He. induction 1 as [u v [a Hin] | u v w [a Hin] _ IH].
  - eauto.
  - specialize (He _ _ _ Hin). lia.
Qed.

Lemma path_more_edges g g' u v :
  (forall x y, is_edge g x y -> is_edge g' x y) -> path g u v -> path g' u v.
Proof.
  intros Hsub. induction 1.
  - apply path_edge. auto.
  - eapply path_step; eauto.
Qed.

Lemma reaches_more_edges g g' u v :
  (forall x y, is_edge g x y -> is_edge g' x y) ->
  reaches g u v -> reaches g' u v.
Proof.
  intros Hsub [-> | H]; [left; reflexivity | right].
  eapply path_more_edges; eassumption.
Qed.

Lemma reaches_step g u v w : is_edge g u v -> reaches g v w -> reaches g u w.
Proof.
  intros He [<- | H]; right; [apply path_edge | eapply path_step]; eassumption.
Qed.

Lemma is_root_merge ns ns' e k A B a1 a2 n :
  is_root (mkDiGraph ns (e ++ [(k, A, a1); (k, B, a2)])) n =
  is_root (mkDiGraph ns' e) n && negb (n =? A) && negb (n =? B).
Proof.
  unfold is_root. simpl. rewrite existsb_app. simpl.
  rewrite (Nat.eqb_sym A n), (Nat.eqb_sym B n).
  destruct (existsb _ e), (n =? A), (n =? B); reflexivity.
Qed.

Lemma is_leaf_merge ns ns' e k A B a1 a2 n :
  is_leaf (mkDiGraph ns (e ++ [(k, A, a1); (k, B, a2)])) n =
  is_leaf (mkDiGraph ns' e) n && negb (n =? k).
Proof.
  unfold is_leaf. simpl. rewrite existsb_app. simpl.
  rewrite (Nat.eqb_sym k n).
  destruct (existsb _ e), (n =? k); reflexivity.
Qed.

Lemma is_root_no_edge_to g n :
  (forall u v a, In (u, v, a) (edges g) -> v <> n) -> is_root g n = true.
Proof.
  intros H. unfold is_root. apply negb_true_iff, not_true_is_false. intros E.
  apply existsb_exists in E. destruct E as ([[u v] a] & Hin & E). simpl in E.
  apply Nat.eqb_eq in E. apply (H _ _ _ Hin). exact E.
Qed.

Lemma drop_filter p x l :
  drop x (filter p l) = filter (fun y => p y && negb (y =? x)) l.
Proof.
  unfold drop. induction l as [| y l IH]; simpl; [reflexivity |].
  destruct (p y); simpl; [| exact IH].
  destruct (negb (y =? x)); simpl; rewrite IH; reflexivity.
Qed.

Lemma tree_inv_initial qubits :
  tree_inv (Z.to_nat qubits) (initial_state qubits).
Proof.
  unfold initial_state. rewrite initial_tree_eq.
  set (N := Z.to_nat qubits).
  assert (Hall : forall p, (forall n, p n = true) ->
                           filter p (seq 0 N) = seq 0 N).
  { intros p Hp. apply forallb_filter_id, forallb_forall. auto. }
  constructor; unfold node_ids, roots, leaves, internal_nodes, node_ids;
    simpl; rewrite ?blank_nodes_length, ?blank_nodes_ids.
  - reflexivity.
  - rewrite length_seq. lia.
  - lia.
  - apply StronglySorted_seq.
  - apply Hall. reflexivity.
  - contradiction.
  - apply Hall. reflexivity.
  - rewrite Nat.sub_diag. simpl. clear Hall.
    induction (seq 0 N) as [| n l IH]; simpl; [reflexivity | exact IH].
  - intros n Hn. exists n. split; [apply in_seq; lia | left; reflexivity].
Qed.

Lemma tree_inv_items_lt N s x :
  tree_inv N s -> In x (items s) -> x < length (nodes (tree s)).
Proof.
  intros H Hx. rewrite <- (inv_roots N s H) in Hx.
  unfold roots, node_ids in Hx. apply filter_In in Hx. destruct Hx as [Hx _].
  rewrite (inv_nodes N s H), blank_nodes_ids in Hx. apply in_seq in Hx. lia.
Qed.

Lemma tree_inv_merge N HT its A B :
  tree_inv N (mkState HT its) -> In A its -> In B its -> A <> B ->
  tree_inv N (mkState (merge_tree HT A B)
                (drop B (drop A its) ++ [length (nodes HT)])).
Proof.
  intros H HA HB HAB.
  pose proof (tree_inv_items_lt _ _ _ H HA) as HAk.
  pose proof (tree_inv_items_lt _ _ _ H HB) as HBk.
  destruct H as [Hn Hc Hq Hs Hr He Hl Hi Hp].
  destruct HT as [ns e]. simpl in *.
  remember (length ns) as k eqn:Hk. subst ns. clear Hk.
  assert (Hnd : NoDup its) by (apply StronglySorted_lt_NoDup; exact Hs).
  assert (Hilt : forall x, In x its -> x < k).
  { intros x Hx. rewrite <- Hr in Hx. unfold roots, node_ids in Hx.
    apply filter_In in Hx. simpl in Hx. rewrite blank_nodes_ids in Hx.
    destruct Hx as [Hx _]. apply in_seq in Hx. lia. }
  rewrite merge_tree_eq; try assumption.
  2:{ intros x y a Hin. apply He in Hin. lia. }
  unfold roots, leaves, internal_nodes, node_ids in *. simpl in *.
  rewrite blank_nodes_ids in *.
  constructor; unfold roots, leaves, internal_nodes, node_ids;
    cbn [tree items nodes edges];
    rewrite ?blank_nodes_length, ?blank_nodes_ids.
  - reflexivity.
  - rewrite length_app. simpl.
    assert (HB' : In B (drop A its)) by (apply drop_In; auto).
    pose proof (drop_length A its Hnd HA).
    pose proof (drop_length B (drop A its) (NoDup_filter _ Hnd) HB'). lia.
  - lia.
  - apply StronglySorted_app.
    + unfold drop. do 2 apply StronglySorted_filter. exact Hs.
    + repeat constructor.
    + intros x y Hx [<- | []]. apply drop_In in Hx. destruct Hx as [Hx _].
      apply drop_In in Hx. destruct Hx as [Hx _]. auto.
  - rewrite seq_S, filter_app. simpl.
    rewrite is_root_no_edge_to.
    2:{ simpl. intros u v a Hin. apply in_app_or in Hin.
        destruct Hin as [Hin | [Hin | [Hin | []]]].
        - apply He in Hin. lia.
        - inversion Hin; subst. lia.
        - inversion Hin; subst. lia. }
    f_equal. rewrite <- Hr, !drop_filter. apply filter_ext.
    intros n. apply is_root_merge.
  - intros u v a Hin. apply in_app_or in Hin.
    destruct Hin as [Hin | [Hin | [Hin | []]]].
    + apply He in Hin. destruct Hin as (H1 & H2 & H3).
      repeat split; try lia. exact H3.
    + inversion Hin; subst. repeat split; lia.
    + inversion Hin; subst. repeat split; lia.
  - rewrite seq_S, filter_app. simpl.
    rewrite (is_leaf_merge _ (blank_nodes k)), Nat.eqb_refl, andb_false_r.
    rewrite app_nil_r.
    rewrite <- Hl. apply filter_ext_in. intros n Hn. apply in_seq in Hn.
    rewrite (is_leaf_merge _ (blank_nodes k)).
    replace (n =? k) with false by (symmetry; apply Nat.eqb_neq; lia).
    apply andb_true_r.
  - replace (S k - N) with (S (k - N)) by lia.
    rewrite (seq_S (k - N) N), <- Hi.
    rewrite seq_S, filter_app. simpl.
    rewrite (is_leaf_merge _ (blank_nodes k)), Nat.eqb_refl, andb_false_r.
    simpl. replace (N + (k - N)) with k by lia. f_equal.
    apply filter_ext_in. intros n Hn. apply in_seq in Hn.
    rewrite (is_leaf_merge _ (blank_nodes k)).
    replace (n =? k) with false by (symmetry; apply Nat.eqb_neq; lia).
    rewrite andb_true_r. reflexivity.
  - intros n Hn.
    assert (Hsub : forall x y,
               is_edge (mkDiGraph (blank_nodes k) e) x y ->
               is_edge (mkDiGraph (blank_nodes (S k))
                          (e ++ [(k, A, []); (k, B, [])])) x y).
    { intros x y [a Hin]. exists a. simpl. apply in_or_app. left. exact Hin. }
    destruct (Nat.eq_dec n k) as [-> | Hne].
    + exists k. split; [apply in_or_app; right; left; reflexivity |].
      left. reflexivity.
    + destruct (Hp n ltac:(lia)) as (r & Hrin & Hreach).
      apply (reaches_more_edges _ _ _ _ Hsub) in Hreach.
      destruct (Nat.eq_dec r A) as [-> | HrA];
        [| destruct (Nat.eq_dec r B) as [-> | HrB]].
      * exists k. split; [apply in_or_app; right; left; reflexivity |].
        eapply reaches_step; [| exact Hreach].
        exists []. simpl. apply in_or_app. right. left. reflexivity.
      * exists k. split; [apply in_or_app; right; left; reflexivity |].
        eapply reaches_step; [| exact Hreach].
        exists []. simpl. apply in_or_app. right. right. left. reflexivity.
      * exists r. split; [| exact Hreach].
        apply in_or_app. left. apply drop_In. split; [| exact HrB].
        apply drop_In. auto.
Qed.

(** ** What one scan selects *)

Section Selection.
Variable f : nat -> nat -> Graph -> Q.
Variable g : Graph.

Lemma scan_pairs_some ps : forall q x,
  exists q' y, scan_pairs f g ps (q, Some x) = (q', Some y).
Proof.
  induction ps as [| z ps IH]; intros q x.
  - exists q, x. reflexivity.
  - rewrite scan_pairs_cons.
    destruct (scan_step_cases f g q (Some x) z) as [[-> _] | [-> _]];
      apply IH.
Qed.

(** With at least two items and every score above [-1], a pair is
    selected. *)
Lemma find_pair_some its :
  1 < length its ->
  (forall A B, (-1 # 1 < f A B g)%Q) ->
  exists fmax A B,
    find_pair (pure_score f) its g = (Return (fmax, Some (A, B)), g).
Proof.
  intros Hlen Hpos. rewrite find_pair_pure.
  destruct (all_pairs its) as [| x ps] eqn:E.
  - exfalso. exact (all_pairs_nonempty its Hlen E).
  - rewrite scan_pairs_cons.
    destruct (scan_step_cases f g (-1 # 1)%Q None x) as [[-> _] | [_ Hle]].
    + destruct (scan_pairs_some ps (score f g x) x) as (q' & [A B] & ->).
      exists (PyNum q'), A, B. reflexivity.
    + exfalso. apply (Qlt_not_le _ _ (Hpos (fst x) (snd x))). exact Hle.
Qed.

(** With no score above [-1], nothing is selected. *)
Lemma find_pair_none its :
  StronglySorted lt its ->
  (forall A B, In A its -> In B its -> A < B -> (f A B g <= -1 # 1)%Q) ->
  find_pair (pure_score f) its g = (Return (PyNum (-1 # 1), None), g).
Proof.
  intros Hs Hlow. rewrite find_pair_pure, scan_pairs_keep; [reflexivity |].
  intros [A B] Hin. apply (all_pairs_In_sorted _ _ _ Hs) in Hin.
  apply Hlow; tauto.
Qed.

(** The selected pair of a scan over sorted items: it has the greatest
    score, that score is above [-1], and among the pairs with that score
    it is the least in lexicographic order. *)
Lemma find_pair_selected its fmax A B :
  StronglySorted lt its ->
  find_pair (pure_score f) its g = (Return (fmax, Some (A, B)), g) ->
  In A its /\ In B its /\ A < B /\
  fmax = PyNum (f A B g) /\ (-1 # 1 < f A B g)%Q /\
  (forall A' B', In A' its -> In B' its -> A' < B' ->
     (f A' B' g <= f A B g)%Q) /\
  (forall A' B', In A' its -> In B' its -> A' < B' ->
     (f A' B' g == f A B g)%Q -> lex_le (A, B) (A', B')).
Proof.
  intros Hs H. rewrite find_pair_pure in H.
  destruct (scan_pairs f g (all_pairs its) ((-1 # 1)%Q, None))
    as [q' p'] eqn:E.
  simpl in H. inversion H; subst fmax p'. clear H.
  apply scan_pairs_select in E.
  destruct E as [(Hp & _) | (before & after & Hps & Hq & Hlt & Hb & Ha)];
    [discriminate |].
  unfold score in *. simpl in *.
  assert (Hin : In (A, B) (all_pairs its)).
  { rewrite Hps. apply in_or_app. right. left. reflexivity. }
  apply (all_pairs_In_sorted _ _ _ Hs) in Hin.
  destruct Hin as (HA & HB & HAB).
  pose proof (all_pairs_sorted its Hs) as Hlex. rewrite Hps in Hlex.
  assert (Hcase : forall A' B', In A' its -> In B' its -> A' < B' ->
            In (A', B') before \/ (A', B') = (A, B) \/ In (A', B') after).
  { intros A' B' HA' HB' HAB'.
    assert (Hin : In (A', B') (all_pairs its))
      by (apply all_pairs_In_sorted; auto).
    rewrite Hps in Hin. apply in_app_or in Hin.
    destruct Hin as [Hin | [Hin | Hin]]; auto. }
  repeat split; auto.
  - congruence.
  - intros A' B' HA' HB' HAB'.
    destruct (Hcase A' B' HA' HB' HAB') as [Hin | [Heq | Hin]].
    + apply Qlt_le_weak. exact (Hb _ Hin).
    + inversion Heq. apply Qle_refl.
    + exact (Ha _ Hin).
  - intros A' B' HA' HB' HAB' Htie.
    destruct (Hcase A' B' HA' HB' HAB') as [Hin | [Heq | Hin]].
    + exfalso. specialize (Hb _ Hin). simpl in Hb.
      rewrite Htie in Hb. exact (Qlt_irrefl _ Hb).
    + left. symmetry. exact Heq.
    + right. exact (StronglySorted_after _ _ _ _ Hlex _ Hin).
Qed.

Lemma merge_items_eq HT its A B :
  NoDup its -> In A its -> In B its -> A <> B ->
  merge_items HT its A B g =
  (Return (drop B (drop A its) ++ [length (nodes HT)]), g).
Proof.
  intros Hnd HA HB HAB. unfold merge_items, list_remove.
  rewrite (remove_first_drop its A Hnd HA). unfold bind, ret.
  rewrite (remove_first_drop (drop A its) B).
  - reflexivity.
  - apply NoDup_filter. exact Hnd.
  - apply drop_In. auto.
Qed.

(** *** The loop, one iteration at a time *)

Lemma while_loop_done Fs fuel HT its :
  length its <= 1 -> while_loop Fs fuel HT its g = (Return HT, g).
Proof.
  intros H. destruct fuel; simpl;
    (replace (1 <? length its) with false
       by (symmetry; apply Nat.ltb_ge; exact H)); reflexivity.
Qed.

Lemma while_loop_break Fs fuel HT its fmax g' :
  1 < length its ->
  find_pair Fs its g = (Return (fmax, None), g') ->
  while_loop Fs (S fuel) HT its g = (Return HT, g').
Proof.
  intros Hlen H. simpl.
  replace (1 <? length its) with true
    by (symmetry; apply Nat.ltb_lt; exact Hlen).
  rewrite (bind_Return _ _ _ _ _ H). reflexivity.
Qed.

Lemma while_loop_merge fuel s s' :
  merge_step f g s s' ->
  while_loop (pure_score f) (S fuel) (tree s) (items s) g =
  while_loop (pure_score f) fuel (tree s') (items s') g.
Proof.
  intros [HT its fmax A B its' Hlen Hfind Hmerge]. simpl.
  replace (1 <? length its) with true
    by (symmetry; apply Nat.ltb_lt; exact Hlen).
  rewrite (bind_Return _ _ _ _ _ Hfind). simpl.
  rewrite (bind_Return _ _ _ _ _ Hmerge). reflexivity.
Qed.

Lemma merge_step_inv N s s' :
  tree_inv N s -> merge_step f g s s' ->
  tree_inv N s' /\
  length (nodes (tree s')) = S (length (nodes (tree s))) /\
  S (length (items s')) = length (items s).
Proof.
  intros Hinv Hstep.
  inversion Hstep as [HT its fmax A B its' Hlen Hfind Hmerge]; subst.
  clear Hstep.
  pose proof (inv_sorted _ _ Hinv) as Hs. simpl in Hs.
  destruct (find_pair_selected _ _ _ _ Hs Hfind) as (HA & HB & HAB & _).
  assert (Hne : A <> B) by lia.
  rewrite merge_items_eq in Hmerge
    by (auto using StronglySorted_lt_NoDup).
  inversion Hmerge; subst its'. clear Hmerge.
  pose proof (tree_inv_merge _ _ _ _ _ Hinv HA HB Hne) as Hinv'.
  split; [exact Hinv' |].
  pose proof (inv_count _ _ Hinv) as Hc.
  pose proof (inv_count _ _ Hinv') as Hc'.
  pose proof (inv_nodes _ _ Hinv') as Hn'.
  pose proof (tree_inv_items_lt _ _ _ Hinv HA) as HAk.
  pose proof (tree_inv_items_lt _ _ _ Hinv HB) as HBk.
  simpl in *.
  assert (Hk : length (nodes (merge_tree HT A B)) = S (length (nodes HT))).
  { destruct HT as [ns e].
    pose proof (inv_nodes _ _ Hinv) as Hn.
    pose proof (inv_edges _ _ Hinv) as He. simpl in *.
    remember (length ns) as k eqn:Ek. rewrite Hn.
    rewrite merge_tree_eq; try assumption.
    - cbn [nodes]. apply blank_nodes_length.
    - intros x y a Hin. apply He in Hin. lia. }
  split; [exact Hk | lia].
Qed.

Lemma iteration_inv qubits k s :
  iteration f g qubits k s ->
  tree_inv (Z.to_nat qubits) s /\
  length (nodes (tree s)) = Z.to_nat qubits + k /\
  length (items s) + k = Z.to_nat qubits.
Proof.
  induction 1 as [| k s s' _ (IH & IHn & IHi) Hstep].
  - split; [apply tree_inv_initial |].
    unfold initial_state. rewrite initial_tree_eq. unfold node_ids. simpl.
    rewrite blank_nodes_ids, blank_nodes_length, length_seq. lia.
  - destruct (merge_step_inv _ _ _ IH Hstep) as (H1 & H2 & H3).
    split; [exact H1 | lia].
Qed.

Lemma iteration_run qubits k s :
  iteration f g qubits k s ->
  forall fuel,
    generate_hierarchy_tree_fuel (k + fuel) (pure_score f) qubits g =
    while_loop (pure_score f) fuel (tree s) (items s) g.
Proof.
  induction 1 as [| k s s' _ IH Hstep]; intros fuel.
  - reflexivity.
  - replace (S k + fuel) with (k + S fuel) by lia.
    rewrite IH. apply while_loop_merge. exact Hstep.
Qed.

(** From a state with [S m] items and every score above [-1], the loop
    merges [m] more times. *)
Lemma iteration_to_end qubits :
  (forall A B, (-1 # 1 < f A B g)%Q) ->
  forall m k s,
    iteration f g qubits k s -> length (items s) = S m ->
    exists s', iteration f g qubits (k + m) s' /\ length (items s') = 1.
Proof.
  intros Hpos. induction m as [| m IH]; intros k s Hit Hlen.
  - exists s. rewrite Nat.add_0_r. auto.
  - destruct (iteration_inv _ _ _ Hit) as (Hinv & _).
    destruct (find_pair_some (items s) ltac:(lia) Hpos) as (fm & A & B & Hf).
    pose proof (inv_sorted _ _ Hinv) as Hs.
    destruct (find_pair_selected _ _ _ _ Hs Hf) as (HA & HB & HAB & _).
    assert (Hstep : merge_step f g s
              (mkState (merge_tree (tree s) A B)
                 (drop B (drop A (items s)) ++ [length (nodes (tree s))]))).
    { destruct s as [HT its]. simpl in *.
      apply (merge_step_intro f g HT its fm A B); [lia | exact Hf |].
      apply merge_items_eq; auto using StronglySorted_lt_NoDup. lia. }
    destruct (merge_step_inv _ _ _ Hinv Hstep) as (_ & _ & Hlen').
    destruct (IH (S k) _ (iteration_next _ _ _ _ _ _ Hit Hstep)
                ltac:(lia)) as (s' & Hit' & Hlen'').
    exists s'. split; [| exact Hlen''].
    replace (k + S m) with (S k + m) by lia. exact Hit'.
Qed.
End Selection.

(** ** The tree at the end of the loop *)

Lemma last_seq n : last (seq 0 (S n)) 0 = n.
Proof. rewrite seq_S. apply last_last. Qed.

Lemma tree_inv_acyclic N s : tree_inv N s -> acyclic (tree s).
Proof.
  intros H n Hp. apply path_decreasing in Hp; [lia |].
  intros x y a Hin. apply (inv_edges _ _ H) in Hin. lia.
Qed.

Lemma tree_inv_final N s :
  1 <= N -> tree_inv N s -> length (items s) = 1 ->
  is_hierarchy_tree N (tree s) /\ node_ids (tree s) = seq 0 (2 * N - 1).
Proof.
  intros HN H Hone.
  pose proof (inv_count _ _ H) as Hc. pose proof (inv_nodes _ _ H) as Hn.
  pose proof (inv_roots _ _ H) as Hr. pose proof (inv_reach _ _ H) as Hp.
  remember (length (nodes (tree s))) as k eqn:Ek.
  assert (Hk : k = S (2 * N - 2)) by lia.
  assert (Hids : node_ids (tree s) = seq 0 k).
  { unfold node_ids. rewrite Hn. apply blank_nodes_ids. }
  assert (Hlast : last_node (tree s) = 2 * N - 2).
  { unfold last_node. rewrite Hids, Hk. apply last_seq. }
  destruct (items s) as [| r [| ? ?]] eqn:Eits; simpl in Hone; try lia.
  assert (Hrk : r < k).
  { rewrite Ek. apply (tree_inv_items_lt N s r H). rewrite Eits. left.
    reflexivity. }
  assert (Hroot : r = 2 * N - 2).
  { destruct (Hp (2 * N - 2) ltac:(lia)) as (r' & [<- | []] & [E | Hpath]).
    - exact E.
    - apply path_decreasing in Hpath; [lia |].
      intros x y a Hin. apply (inv_edges _ _ H) in Hin. lia. }
  split; [| rewrite Hids; f_equal; lia].
  repeat split.
  - apply (inv_leaves _ _ H).
  - rewrite (inv_internal _ _ H), length_seq. lia.
  - apply (tree_inv_acyclic N). exact H.
  - rewrite Hr, Hlast, Hroot. reflexivity.
  - intros n Hin. rewrite Hids in Hin. apply in_seq in Hin.
    destruct (Hp n ltac:(lia)) as (r' & [<- | []] & Hreach).
    rewrite Hlast, <- Hroot. exact Hreach.
Qed.

(** With every score above [-1] the loop merges until one item is left,
    and the result is the tree of that state. *)
Lemma generate_tree f g qubits :
  (1 <= qubits)%Z ->
  (forall A B, (-1 # 1 < f A B g)%Q) ->
  exists s,
    iteration f g qubits (Z.to_nat qubits - 1) s /\
    length (items s) = 1 /\
    generate_hierarchy_tree (pure_score f) qubits g = (Return (tree s), g) /\
    is_hierarchy_tree (Z.to_nat qubits) (tree s) /\
    node_ids (tree s) = seq 0 (2 * Z.to_nat qubits - 1).
Proof.
  intros Hq Hpos.
  assert (HN : 1 <= Z.to_nat qubits) by lia.
  destruct (iteration_inv f g qubits 0 _ (iteration_first f g qubits))
    as (_ & _ & Hlen).
  destruct (iteration_to_end f g qubits Hpos (Z.to_nat qubits - 1) 0
              (initial_state qubits) (iteration_first f g qubits)
              ltac:(lia)) as (s & Hit & Hone).
  simpl in Hit. exists s.
  destruct (iteration_inv f g qubits _ _ Hit) as (Hinv & _).
  destruct (tree_inv_final _ _ HN Hinv Hone) as [Htree Hids].
  split; [exact Hit |]. split; [exact Hone |].
  split; [| split; assumption].
  unfold generate_hierarchy_tree.
  replace (Z.to_nat qubits) with (Z.to_nat qubits - 1 + 1) at 1 by lia.
  rewrite (iteration_run f g qubits _ s Hit 1).
  apply while_loop_done. lia.
Qed.

(** ** The loop never runs out of fuel *)

Lemma remove_first_length l x l' :
  remove_first l x = Some l' -> length l = S (length l').
Proof.
  revert l'. induction l as [| y l IH]; intros l' H; simpl in H;
    [discriminate |].
  destruct (y =? x).
  - inversion H; subst. reflexivity.
  - destruct (remove_first l x) as [l'' |]; [| discriminate].
    inversion H; subst. simpl. f_equal. apply IH. reflexivity.
Qed.

Lemma terminates_bind {A B} (c : M A) (k : A -> M B) :
  terminates c -> (forall a, terminates (k a)) -> terminates (bind c k).
Proof.
  intros Hc Hk g. unfold bind. specialize (Hc g).
  destruct (c g) as [[a | e |] g1]; simpl in *;
    [apply Hk | discriminate | congruence].
Qed.

Lemma terminates_ret {A} (a : A) : terminates (ret a).
Proof. intros g. discriminate. Qed.

Lemma terminates_for_each {A S} (xs : list A) (body : A -> S -> M S) :
  (forall x s, terminates (body x s)) ->
  forall s, terminates (for_each xs body s).
Proof.
  intros Hb. induction xs as [| x xs IH]; intros s; simpl.
  - apply terminates_ret.
  - apply terminates_bind; auto.
Qed.

Lemma terminates_find_pair Fs l :
  (forall A B, terminates (Fs A B)) -> terminates (find_pair Fs l).
Proof.
  intros HF. unfold find_pair.
  apply terminates_for_each. intros i s.
  apply terminates_for_each. intros j s'. unfold scan_body.
  apply terminates_bind; [apply HF |]. intros v.
  apply terminates_bind.
  - destruct v, (fst s'); intros g; discriminate.
  - intros c. destruct c; apply terminates_ret.
Qed.

Lemma merge_items_length HT l A B g u g' :
  merge_items HT l A B g = (Return u, g') -> S (length u) = length l.
Proof.
  unfold merge_items, list_remove, bind, ret, raise.
  destruct (remove_first l A) as [u1 |] eqn:E1; [| discriminate].
  destruct (remove_first u1 B) as [u2 |] eqn:E2; [| discriminate].
  intros H. inversion H; subst.
  apply remove_first_length in E1, E2.
  rewrite length_app. simpl. lia.
Qed.

Lemma merge_items_terminates HT l A B g g' :
  merge_items HT l A B g <> (OutOfFuel, g').
Proof.
  unfold merge_items, list_remove, bind, ret, raise.
  destruct (remove_first l A) as [u1 |]; [| discriminate].
  destruct (remove_first u1 B) as [u2 |]; discriminate.
Qed.

Lemma while_loop_fuel_enough Fs :
  (forall A B, terminates (Fs A B)) ->
  forall fuel HT l, length l <= S fuel -> terminates (while_loop Fs fuel HT l).
Proof.
  intros HF. induction fuel as [| fuel IH]; intros HT l Hlen; simpl.
  - replace (1 <? length l) with false
      by (symmetry; apply Nat.ltb_ge; exact Hlen).
    apply terminates_ret.
  - destruct (1 <? length l); [| apply terminates_ret].
    apply terminates_bind; [apply terminates_find_pair; exact HF |].
    intros [fm [[A B] |]]; simpl; [| apply terminates_ret].
    intros g. unfold bind.
    destruct (merge_items HT l A B g) as [[u | e |] g1] eqn:E; simpl.
    + apply merge_items_length in E. apply IH. lia.
    + discriminate.
    + exfalso. revert E. apply merge_items_terminates.
Qed.

Lemma generate_hierarchy_tree_terminates Fs qubits :
  (forall A B, terminates (Fs A B)) ->
  terminates (generate_hierarchy_tree Fs qubits).
Proof.
  intros HF. unfold generate_hierarchy_tree, generate_hierarchy_tree_fuel.
  apply while_loop_fuel_enough; [exact HF |].
  rewrite initial_tree_eq. unfold node_ids. simpl.
  rewrite blank_nodes_ids, length_seq. lia.
Qed.

(** ** Attributes are never written *)

Lemma while_loop_no_attrs Fs : forall fuel HT its g HT' g',
  no_attrs HT ->
  while_loop Fs fuel HT its g = (Return HT', g') -> no_attrs HT'.
Proof.
  induction fuel as [| fuel IH]; intros HT its g HT' g' Hna H; simpl in H.
  - destruct (1 <? length its); [discriminate |].
    inversion H; subst. exact Hna.
  - destruct (1 <? length its); [| inversion H; subst; exact Hna].
    apply bind_inv_Return in H. destruct H as ([fm p] & g1 & _ & H).
    destruct p as [[A B] |]; simpl in H; [| inversion H; subst; exact Hna].
    apply bind_inv_Return in H. destruct H as (u & g2 & _ & H).
    apply (IH _ _ _ _ _ (no_attrs_merge_tree HT A B Hna) H).
Qed.

Lemma no_attrs_stores_nothing g n q : no_attrs g -> ~ stores_score g n q.
Proof.
  intros [Hn _] (a & k & q' & Ha & Hin & _). unfold node_attrs in Ha.
  destruct (find (fun p => fst p =? n) (nodes g)) as [[m b] |] eqn:E;
    [| discriminate].
  apply find_some in E. destruct E as [E _]. apply Hn in E. subst b.
  simpl in Ha. inversion Ha; subst. contradiction.
Qed.

(** ** The score that is the same for every pair *)

Lemma find_pair_const m g a b rest :
  (-1 # 1 < m)%Q ->
  find_pair (pure_score (const_score m)) (a :: b :: rest) g =
  (Return (PyNum m, Some (a, b)), g).
Proof.
  intros Hm. rewrite find_pair_pure. simpl all_pairs.
  rewrite scan_pairs_cons.
  destruct (scan_step_cases (const_score m) g (-1 # 1)%Q None (a, b))
    as [[-> _] | [_ Hle]].
  - rewrite scan_pairs_keep; [reflexivity |].
    intros x _. apply Qle_refl.
  - exfalso. exact (Qlt_not_le _ _ Hm Hle).
Qed.

(** * Properties of the tree builder *)

(** C1 does not hold of the code: with two qubits and the score [-1] for
    every pair, the scan from [f_max = -1] with its strict comparison
    selects nothing, the loop breaks with both items unmerged, and the
    graph returned has the two leaves as its roots and no internal node
    where the claim has one; it is not a hierarchy tree over two
    qubits. *)
Theorem no_tree_when_scores_are_minus_one :
  generate_hierarchy_tree (pure_score (const_score (-1 # 1))) 2 cg0 =
    (Return (mkDiGraph [(0, []); (1, [])] []), cg0) /\
  ~ is_hierarchy_tree 2 (mkDiGraph [(0, []); (1, [])] []) /\
  find_pair (pure_score (const_score (-1 # 1))) [0; 1] cg0 =
    (Return (PyNum (-1 # 1), None), cg0) /\
  internal_nodes (mkDiGraph [(0, []); (1, [])] []) = [] /\
  roots (mkDiGraph [(0, []); (1, [])] []) = [0; 1].
Proof.
  split; [reflexivity |]. split; [| repeat split; reflexivity].
  intros (_ & Hint & _). discriminate Hint.
Qed.

(** C2: with the score function [F] of the source, which returns [None],
    the comparison [f > f_max] raises [TypeError], and so does
    [generate_hierarchy_tree] for every qubit count of at least two: it
    never returns a tree. *)
Theorem stub_score_raises_TypeError qubits g :
  (2 <= qubits)%Z ->
  (forall f_max, py_gt PyNone f_max g = (Raise TypeError, g)) /\
  generate_hierarchy_tree F qubits g = (Raise TypeError, g).
Proof.
  intros Hq. split; [reflexivity |].
  unfold generate_hierarchy_tree, generate_hierarchy_tree_fuel.
  rewrite initial_tree_eq. unfold node_ids. cbn [nodes].
  rewrite blank_nodes_ids.
  destruct (Z.to_nat qubits) as [| [| n]] eqn:E; try lia.
  reflexivity.
Qed.

Lemma stub_score_raises_TypeError_witness :
  (2 <= 2)%Z /\
  generate_hierarchy_tree F 2 one_link = (Raise TypeError, one_link).
Proof.
  split; [lia |].
  apply (stub_score_raises_TypeError 2 one_link). lia.
Defined.

(** C3, as stated, fails: on zero qubits the builder does not raise. *)
Lemma zero_qubits_does_not_fail :
  ~ exists e, fst (generate_hierarchy_tree F 0 cg0) = Raise e.
Proof. intros (e & H). discriminate H. Qed.

(** C3, amended: invoked on zero qubits, the tree builder returns the
    empty graph (no node, no edge) and raises nothing, whatever the score
    function. *)
Theorem zero_qubits_empty_graph Fs g :
  generate_hierarchy_tree Fs 0 g = (Return empty_graph, g).
Proof. reflexivity. Qed.

(** C4: at every merging iteration of the loop, for every numeric
    read-only score function, the pair that is merged has the greatest
    score among the pairs of unmerged items, that score is strictly above
    -1, and among the pairs that tie for this greatest score it is the one
    whose two node identifiers are lexicographically smallest; the scores
    and the identifiers alone determine it, since no other pair has both
    properties. *)
Theorem tie_break_lexicographically_smallest f g qubits k s s' :
  iteration f g qubits k s ->
  merge_step f g s s' ->
  exists A B,
    tree s' = merge_tree (tree s) A B /\
    items s' = drop B (drop A (items s)) ++ [length (nodes (tree s))] /\
    In A (items s) /\ In B (items s) /\ A < B /\
    (-1 # 1 < f A B g)%Q /\
    (forall A' B', In A' (items s) -> In B' (items s) -> A' < B' ->
       (f A' B' g <= f A B g)%Q) /\
    (forall A' B', In A' (items s) -> In B' (items s) -> A' < B' ->
       (f A' B' g == f A B g)%Q -> lex_le (A, B) (A', B')) /\
    (forall A' B', In A' (items s) -> In B' (items s) -> A' < B' ->
       (forall C D, In C (items s) -> In D (items s) -> C < D ->
          (f C D g <= f A' B' g)%Q) ->
       (forall C D, In C (items s) -> In D (items s) -> C < D ->
          (f C D g == f A' B' g)%Q -> lex_le (A', B') (C, D)) ->
       (A', B') = (A, B)).
Proof.
  intros Hit Hstep.
  destruct (iteration_inv f g qubits k s Hit) as (Hinv & _).
  pose proof (inv_sorted _ _ Hinv) as Hs.
  inversion Hstep as [HT its fmax A B its' Hlen Hfind Hmerge]; subst.
  simpl in *.
  destruct (find_pair_selected f g its fmax A B Hs Hfind)
    as (HA & HB & HAB & _ & Hgt & Hmax & Hlex).
  rewrite merge_items_eq in Hmerge
    by (auto using StronglySorted_lt_NoDup; lia).
  inversion Hmerge; subst its'.
  exists A, B. repeat split; auto.
  intros A' B' HA' HB' HAB' Hmax' Hlex'.
  assert (Htie : (f A' B' g == f A B g)%Q).
  { apply Qle_antisym; [apply Hmax | apply Hmax']; assumption. }
  apply lex_le_antisym.
  - apply Hlex'; try assumption. symmetry. exact Htie.
  - apply Hlex; assumption.
Qed.

Lemma tie_break_lexicographically_smallest_witness :
  iteration (const_score 0) cg0 3 0 (initial_state 3) /\
  merge_step (const_score 0) cg0 (initial_state 3)
    (mkState (merge_tree (initial_tree 3) 0 1) [2; 3]) /\
  exists A B,
    merge_tree (initial_tree 3) 0 1 = merge_tree (initial_tree 3) A B /\
    [2; 3] = drop B (drop A [0; 1; 2]) ++ [3] /\
    In A [0; 1; 2] /\ In B [0; 1; 2] /\ A < B /\
    (-1 # 1 < const_score 0 A B cg0)%Q.
Proof.
  assert (Hit : iteration (const_score 0) cg0 3 0 (initial_state 3))
    by apply iteration_first.
  assert (Hstep : merge_step (const_score 0) cg0 (initial_state 3)
                    (mkState (merge_tree (initial_tree 3) 0 1) [2; 3])).
  { apply (merge_step_intro (const_score 0) cg0 (initial_tree 3) [0; 1; 2]
             (PyNum 0) 0 1 [2; 3]); [simpl; lia | reflexivity | reflexivity]. }
  split; [exact Hit |]. split; [exact Hstep |].
  destruct (tie_break_lexicographically_smallest (const_score 0) cg0 3 0
              _ _ Hit Hstep)
    as (A & B & H1 & H2 & H3 & H4 & H5 & H6 & _).
  exists A, B. repeat split; assumption.
Defined.

(** C6, as stated, fails: after merging two qubits with winning score 7/2
    the internal node 2 carries no attribute, so no score is stored on it,
    and neither do its edges carry one. *)
Lemma winning_score_not_stored :
  generate_hierarchy_tree (pure_score (const_score (7 # 2))) 2 cg0 =
    (Return (mkDiGraph [(0, []); (1, []); (2, [])]
               [(2, 0, []); (2, 1, [])]), cg0) /\
  internal_nodes (mkDiGraph [(0, []); (1, []); (2, [])]
                    [(2, 0, []); (2, 1, [])]) = [2] /\
  ~ stores_score (mkDiGraph [(0, []); (1, []); (2, [])]
                    [(2, 0, []); (2, 1, [])]) 2 (7 # 2).
Proof.
  split; [reflexivity |]. split; [reflexivity |].
  intros (a & k & q' & Ha & Hin & _).
  inversion Ha; subst. contradiction.
Qed.

(** C6, amended: in the graph returned by the tree builder, whatever the
    score function, no node and no edge carries any attribute: the winning
    score of a merge is not recorded on the new node and cannot be
    retrieved from the returned tree. *)
Theorem no_score_recorded Fs qubits g HT g' :
  generate_hierarchy_tree Fs qubits g = (Return HT, g') ->
  no_attrs HT /\ forall n q, ~ stores_score HT n q.
Proof.
  intros H.
  assert (Hna : no_attrs HT).
  { apply (while_loop_no_attrs Fs _ _ _ _ _ _
             (no_attrs_initial_tree qubits) H). }
  split; [exact Hna |].
  intros n q. apply no_attrs_stores_nothing. exact Hna.
Qed.

Lemma no_score_recorded_witness :
  generate_hierarchy_tree (pure_score (const_score (7 # 2))) 4 isolated4 =
    (Return tree4, isolated4) /\
  no_attrs tree4 /\ forall n q, ~ stores_score tree4 n q.
Proof.
  split; [reflexivity |].
  apply (no_score_recorded (pure_score (const_score (7 # 2))) 4 isolated4
           tree4 isolated4).
  reflexivity.
Defined.

(** C7 does not hold of the code: on four qubits without connection,
    when the minimum score returned for every pair is -1, the scan from
    [f_max = -1] selects nothing, the loop breaks with the four items
    unmerged, and the graph returned is four isolated leaves, with no
    internal node where the claim has three; it is not a tree. *)
Theorem disconnected_minimum_minus_one_no_tree :
  generate_hierarchy_tree (pure_score (const_score (-1 # 1))) 4 isolated4 =
    (Return (mkDiGraph [(0, []); (1, []); (2, []); (3, [])] []), isolated4) /\
  ~ is_hierarchy_tree 4 (mkDiGraph [(0, []); (1, []); (2, []); (3, [])] []) /\
  find_pair (pure_score (const_score (-1 # 1))) [0; 1; 2; 3] isolated4 =
    (Return (PyNum (-1 # 1), None), isolated4) /\
  internal_nodes (mkDiGraph [(0, []); (1, []); (2, []); (3, [])] []) = [] /\
  roots (mkDiGraph [(0, []); (1, []); (2, []); (3, [])] []) = [0; 1; 2; 3].
Proof.
  split; [reflexivity |]. split; [| repeat split; reflexivity].
  intros (_ & Hint & _). discriminate Hint.
Qed.

(** The same four qubits with a minimum above -1: on a coupling graph
    without connection, with a score function returning the same value m
    for every pair, m strictly above -1, [generate_hierarchy_tree]
    returns a single tree with the 4 leaves 0..3 and the 3 internal nodes
    4, 5, 6; each of the three merges is selected with the score m. *)
Theorem disconnected_four_qubits m g :
  g_edges g = [] ->
  (-1 # 1 < m)%Q ->
  generate_hierarchy_tree (pure_score (const_score m)) 4 g =
    (Return tree4, g) /\
  is_hierarchy_tree 4 tree4 /\
  leaves tree4 = [0; 1; 2; 3] /\ internal_nodes tree4 = [4; 5; 6] /\
  find_pair (pure_score (const_score m)) [0; 1; 2; 3] g =
    (Return (PyNum m, Some (0, 1)), g) /\
  find_pair (pure_score (const_score m)) [2; 3; 4] g =
    (Return (PyNum m, Some (2, 3)), g) /\
  find_pair (pure_score (const_score m)) [4; 5] g =
    (Return (PyNum m, Some (4, 5)), g).
Proof.
  intros _ Hm.
  set (f := const_score m).
  set (t0 := initial_tree 4).
  set (t1 := merge_tree t0 0 1).
  set (t2 := merge_tree t1 2 3).
  assert (S1 : merge_step f g (mkState t0 [0; 1; 2; 3]) (mkState t1 [2; 3; 4])).
  { apply (merge_step_intro f g t0 [0; 1; 2; 3] (PyNum m) 0 1 [2; 3; 4]);
      [simpl; lia | apply find_pair_const; exact Hm | reflexivity]. }
  assert (S2 : merge_step f g (mkState t1 [2; 3; 4]) (mkState t2 [4; 5])).
  { apply (merge_step_intro f g t1 [2; 3; 4] (PyNum m) 2 3 [4; 5]);
      [simpl; lia | apply find_pair_const; exact Hm | reflexivity]. }
  assert (S3 : merge_step f g (mkState t2 [4; 5]) (mkState tree4 [6])).
  { apply (merge_step_intro f g t2 [4; 5] (PyNum m) 4 5 [6]);
      [simpl; lia | apply find_pair_const; exact Hm | reflexivity]. }
  assert (Hrun : generate_hierarchy_tree (pure_score f) 4 g =
                 (Return tree4, g)).
  { change (while_loop (pure_score f) 4 t0 [0; 1; 2; 3] g = (Return tree4, g)).
    pose proof (while_loop_merge f g 3 _ _ S1) as E1.
    pose proof (while_loop_merge f g 2 _ _ S2) as E2.
    pose proof (while_loop_merge f g 1 _ _ S3) as E3.
    cbn [tree items] in E1, E2, E3. rewrite E1, E2, E3. reflexivity. }
  split; [exact Hrun |]. split.
  - destruct (generate_tree f g 4 ltac:(lia) (fun _ _ => Hm))
      as (s & _ & _ & Hrun' & Ht & _).
    rewrite Hrun in Hrun'. inversion Hrun' as [E]. rewrite E. exact Ht.
  - repeat split; try reflexivity; apply find_pair_const; exact Hm.
Qed.

Lemma disconnected_four_qubits_witness :
  g_edges isolated4 = [] /\ (-1 # 1 < 0)%Q /\
  generate_hierarchy_tree (pure_score (const_score 0)) 4 isolated4 =
    (Return tree4, isolated4) /\
  is_hierarchy_tree 4 tree4.
Proof.
  split; [reflexivity |]. split; [reflexivity |].
  destruct (disconnected_four_qubits 0 isolated4 eq_refl eq_refl)
    as (H1 & H2 & _).
  split; [exact H1 | exact H2].
Defined.

(** C8: for a single qubit, whatever the score function,
    [generate_hierarchy_tree] returns normally a graph of exactly one
    node, the leaf 0, which is the root; there is no edge, no merge and no
    internal node, and the graph is a hierarchy tree over one qubit. *)
Theorem single_qubit_root_leaf Fs g :
  generate_hierarchy_tree Fs 1 g = (Return (mkDiGraph [(0, [])] []), g) /\
  leaves (mkDiGraph [(0, [])] []) = [0] /\
  internal_nodes (mkDiGraph [(0, [])] []) = [] /\
  roots (mkDiGraph [(0, [])] []) = [0] /\
  is_hierarchy_tree 1 (mkDiGraph [(0, [])] []).
Proof.
  repeat split; try reflexivity.
  - intros n Hp. destruct Hp as [u v [a []] | u v w [a []] _].
  - intros n [<- | []]. left. reflexivity.
Qed.

(** C9: for at least two qubits and a numeric read-only score function,
    when at some iteration every pair of unmerged items has a score of at
    most -1, the scan leaves [pair_to_merge] at [None], the loop breaks,
    and [generate_hierarchy_tree] returns the forest of that iteration,
    whose roots are the unmerged items, more than one, so that it is not a
    single tree; and every pair that is merged at any iteration has a
    score strictly above -1. *)
Theorem low_scores_stop_merging f g qubits k s :
  (2 <= qubits)%Z ->
  iteration f g qubits k s ->
  1 < length (items s) ->
  (forall A B, In A (items s) -> In B (items s) -> A < B ->
     (f A B g <= -1 # 1)%Q) ->
  find_pair (pure_score f) (items s) g =
    (Return (PyNum (-1 # 1), None), g) /\
  generate_hierarchy_tree (pure_score f) qubits g = (Return (tree s), g) /\
  roots (tree s) = items s /\
  1 < length (roots (tree s)) /\
  ~ is_hierarchy_tree (Z.to_nat qubits) (tree s) /\
  (forall j t t', iteration f g qubits j t -> merge_step f g t t' ->
     exists A B, tree t' = merge_tree (tree t) A B /\ (-1 # 1 < f A B g)%Q).
Proof.
  intros Hq Hit Hlen Hlow.
  destruct (iteration_inv f g qubits k s Hit) as (Hinv & _ & Hcount).
  pose proof (inv_sorted _ _ Hinv) as Hs.
  pose proof (inv_roots _ _ Hinv) as Hr.
  pose proof (find_pair_none f g (items s) Hs Hlow) as Hnone.
  split; [exact Hnone |]. split.
  - unfold generate_hierarchy_tree.
    replace (Z.to_nat qubits) with (k + S (length (items s) - 1)) at 1 by lia.
    rewrite (iteration_run f g qubits k s Hit).
    apply (while_loop_break g (pure_score f) _ _ _ _ _ Hlen Hnone).
  - split; [exact Hr |]. split; [rewrite Hr; exact Hlen |]. split.
    + intros (_ & _ & _ & Hroot & _). rewrite Hroot in Hr.
      rewrite <- Hr in Hlen. simpl in Hlen. lia.
    + intros j t t' Hjt Hstep.
      destruct (iteration_inv f g qubits j t Hjt) as (Hinvt & _).
      pose proof (inv_sorted _ _ Hinvt) as Hst.
      inversion Hstep as [HT its fmax A B its' Hl Hfind Hmerge]; subst.
      simpl in *.
      destruct (find_pair_selected f g its fmax A B Hst Hfind)
        as (_ & _ & _ & _ & Hgt & _).
      exists A, B. split; [reflexivity | exact Hgt].
Qed.

Lemma low_scores_stop_merging_witness :
  (2 <= 3)%Z /\
  iteration link_score one_link 3 1
    (mkState (merge_tree (initial_tree 3) 0 1) [2; 3]) /\
  (link_score 2 3 one_link <= -1 # 1)%Q /\
  generate_hierarchy_tree (pure_score link_score) 3 one_link =
    (Return (merge_tree (initial_tree 3) 0 1), one_link) /\
  roots (merge_tree (initial_tree 3) 0 1) = [2; 3].
Proof.
  assert (Hit : iteration link_score one_link 3 1
                  (mkState (merge_tree (initial_tree 3) 0 1) [2; 3])).
  { apply (iteration_next link_score one_link 3 0 (initial_state 3)).
    - apply iteration_first.
    - apply (merge_step_intro link_score one_link (initial_tree 3) [0; 1; 2]
               (PyNum 0) 0 1 [2; 3]);
        [simpl; lia | reflexivity | reflexivity]. }
  assert (Hlow : (link_score 2 3 one_link <= -1 # 1)%Q)
    by (vm_compute; discriminate).
  split; [lia |]. split; [exact Hit |]. split; [exact Hlow |].
  destruct (low_scores_stop_merging link_score one_link 3 1 _
              ltac:(lia) Hit ltac:(simpl; lia))
    as (_ & Hrun & Hroots & _).
  - intros A B [<- | [<- | []]] [<- | [<- | []]] HAB; try lia. exact Hlow.
  - split; [exact Hrun | exact Hroots].
Defined.

(** C10: for every score function that only reads the coupling graph (in
    particular the [F] of the source), every qubit count and every
    coupling graph, the coupling graph after [generate_hierarchy_tree],
    whether it returns or raises, is the one that was passed in. *)
Theorem coupling_graph_not_mutated Fs qubits g :
  score_reads_only Fs ->
  snd (generate_hierarchy_tree Fs qubits g) = g.
Proof.
  intros HF. unfold generate_hierarchy_tree, generate_hierarchy_tree_fuel.
  apply reads_only_while_loop. exact HF.
Qed.

Lemma coupling_graph_not_mutated_witness :
  score_reads_only F /\
  snd (generate_hierarchy_tree F 3 one_link) = one_link.
Proof.
  split; [exact reads_only_score_F |].
  apply (coupling_graph_not_mutated F 3 one_link). exact reads_only_score_F.
Defined.

(** * Further properties of the builder *)

(** ** Loops, whatever the score function does *)

Lemma for_each_inv {A S} (P : S -> Prop) (xs : list A)
  (body : A -> S -> M S) :
  (forall x s g s' g', In x xs -> P s ->
     body x s g = (Return s', g') -> P s') ->
  forall s g s' g',
    P s -> for_each xs body s g = (Return s', g') -> P s'.
Proof.
  induction xs as [| x xs IH]; intros Hb s g s' g' Hs H; simpl in H.
  - inversion H; subst. exact Hs.
  - apply bind_inv_Return in H. destruct H as (s1 & g1 & H1 & H2).
    apply (IH (fun y t h t' h' Hy => Hb y t h t' h' (or_intror Hy))
             s1 g1 s' g'); [| exact H2].
    apply (Hb x s g s1 g1); [left; reflexivity | exact Hs | exact H1].
Qed.

(** A selected pair is made of two items, the first at a smaller index. *)
Lemma find_pair_indices Fs its g fm A B g' :
  find_pair Fs its g = (Return (fm, Some (A, B)), g') ->
  exists i j, i < j < length its /\ A = nth i its 0 /\ B = nth j its 0.
Proof.
  intros H.
  set (P := fun st : scan_state =>
              forall A B, snd st = Some (A, B) ->
              exists i j, i < j < length its /\
                          A = nth i its 0 /\ B = nth j its 0).
  assert (HP : P (fm, Some (A, B))).
  { unfold find_pair in H.
    refine (for_each_inv P _ _ _ _ _ _ _ _ H).
    2:{ intros ? ? E. discriminate E. }
    intros i s h s' h' Hi Hs Hin.
    refine (for_each_inv P _ _ _ _ _ _ _ Hs Hin).
    intros j t h1 t' h1' Hj Ht Hb.
    unfold range in Hi, Hj. apply in_seq in Hi, Hj.
    unfold scan_body in Hb.
    apply bind_inv_Return in Hb. destruct Hb as (f & h2 & _ & Hb).
    apply bind_inv_Return in Hb. destruct Hb as (c & h3 & _ & Hb).
    destruct c; inversion Hb; subst; [| exact Ht].
    intros A' B' E. simpl in E. inversion E; subst.
    exists i, j. repeat split; lia. }
  apply (HP A B). reflexivity.
Qed.

Lemma sorted_nth_lt l : StronglySorted lt l ->
  forall i j, i < j < length l -> nth i l 0 < nth j l 0.
Proof.
  induction 1 as [| a l Hl IH Ha]; intros i j Hij; simpl in Hij; [lia |].
  rewrite Forall_forall in Ha.
  destruct j as [| j]; [lia |]. destruct i as [| i]; simpl.
  - apply Ha. apply nth_In. lia.
  - apply IH. lia.
Qed.

Lemma find_pair_sorted_items Fs its g fm A B g' :
  StronglySorted lt its ->
  find_pair Fs its g = (Return (fm, Some (A, B)), g') ->
  In A its /\ In B its /\ A < B.
Proof.
  intros Hs H. apply find_pair_indices in H.
  destruct H as (i & j & Hij & -> & ->).
  repeat split; try (apply nth_In; lia).
  apply sorted_nth_lt; assumption.
Qed.

(** ** The forest kept by the loop *)

Lemma successors_merge ns ns' e k A B a1 a2 n :
  successors (mkDiGraph ns (e ++ [(k, A, a1); (k, B, a2)])) n =
  successors (mkDiGraph ns' e) n ++ (if k =? n then [A; B] else []).
Proof.
  unfold successors. simpl. rewrite filter_app, map_app. simpl.
  destruct (k =? n); reflexivity.
Qed.

Lemma successors_none g n :
  (forall u v a, In (u, v, a) (edges g) -> u <> n) -> successors g n = [].
Proof.
  intros H. unfold successors.
  induction (edges g) as [| [[u v] a] l IH]; simpl; [reflexivity |].
  destruct (Nat.eqb_spec u n) as [E | _].
  - exfalso. apply (H u v a); [left; reflexivity | exact E].
  - apply IH. intros x y b Hin. apply (H x y b). right. exact Hin.
Qed.

Lemma is_root_no_parent g u v : is_root g v = true -> ~ is_edge g u v.
Proof.
  unfold is_root. intros H [a Hin]. apply negb_true_iff in H.
  assert (E : existsb (fun e => snd (fst e) =? v) (edges g) = true).
  { apply existsb_exists. exists (u, v, a). split; [exact Hin |].
    apply Nat.eqb_refl. }
  congruence.
Qed.

Lemma items_are_roots N s x :
  tree_inv N s -> In x (items s) -> is_root (tree s) x = true.
Proof.
  intros H Hx. rewrite <- (inv_roots N s H) in Hx.
  unfold roots in Hx. apply filter_In in Hx. tauto.
Qed.

Lemma forest_inv_initial qubits :
  forest_inv (Z.to_nat qubits) (initial_state qubits).
Proof.
  unfold initial_state. rewrite initial_tree_eq. constructor; simpl.
  - intros u u' v [a []].
  - intros n Hn. left. unfold node_ids in Hn. simpl in Hn.
    rewrite blank_nodes_ids in Hn. apply in_seq in Hn.
    split; [lia | reflexivity].
  - unfold node_ids. simpl. rewrite blank_nodes_ids, length_seq. auto.
Qed.

Lemma forest_inv_merge N HT its A B :
  tree_inv N (mkState HT its) -> forest_inv N (mkState HT its) ->
  In A its -> In B its -> A < B ->
  forest_inv N (mkState (merge_tree HT A B)
                  (drop B (drop A its) ++ [length (nodes HT)])).
Proof.
  intros Ht [Hpar Hbin _] HA HB HAB.
  pose proof (tree_inv_items_lt _ _ _ Ht HA) as HAk.
  pose proof (tree_inv_items_lt _ _ _ Ht HB) as HBk.
  pose proof (items_are_roots _ _ _ Ht HA) as HrA.
  pose proof (items_are_roots _ _ _ Ht HB) as HrB.
  pose proof (inv_nodes _ _ Ht) as Hn.
  pose proof (inv_edges _ _ Ht) as He.
  pose proof (inv_qubits _ _ Ht) as Hq.
  destruct HT as [ns e]. simpl in *.
  remember (length ns) as k eqn:Hk. subst ns. clear Hk.
  rewrite merge_tree_eq; try assumption; try lia.
  2:{ intros x y a Hin. apply He in Hin. lia. }
  assert (Hedge : forall u v,
             is_edge (mkDiGraph (blank_nodes (S k))
                        (e ++ [(k, A, []); (k, B, [])])) u v ->
             is_edge (mkDiGraph (blank_nodes k) e) u v \/
             (u = k /\ (v = A \/ v = B))).
  { intros u v [a Hin]. simpl in Hin. apply in_app_or in Hin.
    destruct Hin as [Hin | [Hin | [Hin | []]]].
    - left. exists a. exact Hin.
    - inversion Hin; subst. auto.
    - inversion Hin; subst. auto. }
  constructor; cbn [tree].
  - intros u u' v H1 H2. apply Hedge in H1, H2.
    destruct H1 as [H1 | [-> Hv1]], H2 as [H2 | [-> Hv2]].
    + exact (Hpar u u' v H1 H2).
    + exfalso. destruct Hv2 as [-> | ->];
        [exact (is_root_no_parent _ _ _ HrA H1)
        | exact (is_root_no_parent _ _ _ HrB H1)].
    + exfalso. destruct Hv1 as [-> | ->];
        [exact (is_root_no_parent _ _ _ HrA H2)
        | exact (is_root_no_parent _ _ _ HrB H2)].
    + reflexivity.
  - intros n Hin. unfold node_ids in Hin. cbn [nodes] in Hin.
    rewrite blank_nodes_ids in Hin. apply in_seq in Hin.
    rewrite (successors_merge _ (blank_nodes k)).
    destruct (Nat.eqb_spec k n) as [<- | Hne].
    + right. split; [exact Hq |]. exists A, B.
      rewrite successors_none; [simpl; split; [reflexivity | lia] |].
      simpl. intros u v a Hi. apply He in Hi. lia.
    + rewrite app_nil_r. apply Hbin. unfold node_ids. simpl.
      rewrite blank_nodes_ids. apply in_seq. lia.
  - cbn [items]. rewrite length_app. simpl. lia.
Qed.

(** Every head-of-loop state reached from a well-formed one is
    well-formed, whatever the score function returns or does. *)
Lemma while_loop_forest Fs N : forall fuel HT its g HT' g',
  tree_inv N (mkState HT its) -> forest_inv N (mkState HT its) ->
  while_loop Fs fuel HT its g = (Return HT', g') ->
  exists its',
    tree_inv N (mkState HT' its') /\ forest_inv N (mkState HT' its').
Proof.
  induction fuel as [| fuel IH]; intros HT its g HT' g' Ht Hf H; simpl in H.
  - destruct (1 <? length its); [discriminate |].
    inversion H; subst. exists its. auto.
  - destruct (1 <? length its); [| inversion H; subst; exists its; auto].
    apply bind_inv_Return in H. destruct H as ([fm p] & g1 & Hfind & H).
    destruct p as [[A B] |]; simpl in H;
      [| inversion H; subst; exists its; auto].
    pose proof (inv_sorted _ _ Ht) as Hs. simpl in Hs.
    destruct (find_pair_sorted_items _ _ _ _ _ _ _ Hs Hfind)
      as (HA & HB & HAB).
    apply bind_inv_Return in H. destruct H as (u & g2 & Hm & H).
    rewrite merge_items_eq in Hm
      by (auto using StronglySorted_lt_NoDup; lia).
    inversion Hm; subst u g2.
    apply (IH _ _ _ _ _
             (tree_inv_merge _ _ _ _ _ Ht HA HB ltac:(lia))
             (forest_inv_merge _ _ _ _ _ Ht Hf HA HB HAB) H).
Qed.

Lemma path_last g u w :
  path g u w -> exists p, is_edge g p w /\ reaches g u p.
Proof.
  induction 1 as [u v He | u v w He _ (p & Hp & Hr)].
  - exists u. split; [exact He | left; reflexivity].
  - exists p. split; [exact Hp |]. eapply reaches_step; eassumption.
Qed.

(** With one parent at most per node, a node is below one root only. *)
Lemma root_unique g K :
  parent_unique g ->
  (forall u v, is_edge g u v -> v < u < K) ->
  forall d n r r',
    K - n <= d ->
    is_root g r = true -> is_root g r' = true ->
    reaches g r n -> reaches g r' n -> r = r'.
Proof.
  intros Hpar Hdown. induction d as [| d IH]; intros n r r' Hd Hr Hr' H1 H2;
    destruct H1 as [-> | H1], H2 as [E2 | H2]; auto;
    try (apply path_last in H1; destruct H1 as (p & Hp & H1));
    try (apply path_last in H2; destruct H2 as (p' & Hp' & H2)).
  - exfalso. exact (is_root_no_parent _ _ _ Hr Hp').
  - subst. exfalso. exact (is_root_no_parent _ _ _ Hr' Hp).
  - pose proof (Hdown _ _ Hp). lia.
  - exfalso. exact (is_root_no_parent _ _ _ Hr Hp').
  - subst. exfalso. exact (is_root_no_parent _ _ _ Hr' Hp).
  - assert (p = p') by exact (Hpar _ _ _ Hp Hp'). subst p'.
    pose proof (Hdown _ _ Hp).
    apply (IH p r r'); try assumption. lia.
Qed.

Lemma well_formed_forest N s :
  tree_inv N s -> forest_inv N s ->
  forest N (length (nodes (tree s)) - N) (tree s).
Proof.
  intros Ht Hf.
  pose proof (inv_nodes _ _ Ht) as Hn. pose proof (inv_count _ _ Ht) as Hc.
  pose proof (inv_qubits _ _ Ht) as Hq. pose proof (inv_roots _ _ Ht) as Hr.
  pose proof (inv_edges _ _ Ht) as He.
  assert (Hids : node_ids (tree s) = seq 0 (length (nodes (tree s)))).
  { unfold node_ids. rewrite Hn at 1. apply blank_nodes_ids. }
  assert (Hdown : forall u v, is_edge (tree s) u v ->
                              v < u < length (nodes (tree s))).
  { intros u v [a Hin]. apply He in Hin. lia. }
  constructor.
  - rewrite Hids. f_equal. lia.
  - apply (inv_leaves _ _ Ht).
  - apply (inv_internal _ _ Ht).
  - rewrite Hr. lia.
  - pose proof (fi_nonempty _ _ Hf). lia.
  - intros u v H. apply Hdown in H. lia.
  - apply (tree_inv_acyclic N). exact Ht.
  - apply (fi_parent _ _ Hf).
  - apply (fi_binary _ _ Hf).
  - intros n Hin. rewrite Hids in Hin. apply in_seq in Hin. rewrite Hr.
    apply (inv_reach _ _ Ht). lia.
  - intros n r r' Hin Hin' H1 H2. unfold roots in Hin, Hin'.
    apply filter_In in Hin, Hin'.
    apply (root_unique (tree s) (length (nodes (tree s)))
             (fi_parent _ _ Hf) Hdown _ n r r' (Nat.le_refl _));
      tauto.
Qed.

(** X1: whatever the score function returns or does, a graph returned by
    [generate_hierarchy_tree] is a forest over the qubits: for some number
    k <= N-1 of merges its nodes are 0 .. N+k-1, its leaves the qubits
    0 .. N-1, its internal nodes N .. N+k-1 in creation order, it has N-k
    roots, every edge goes to a smaller identifier (no cycle), no node has
    two parents, every internal node has exactly two children with the
    left one smaller than the right one, and every node lies below
    exactly one root. *)
Theorem returned_graph_is_forest Fs qubits g HT g' :
  generate_hierarchy_tree Fs qubits g = (Return HT, g') ->
  exists k, forest (Z.to_nat qubits) k HT.
Proof.
  intros H.
  destruct (while_loop_forest Fs (Z.to_nat qubits) _ _ _ _ _ _
              (tree_inv_initial qubits) (forest_inv_initial qubits) H)
    as (its' & Ht & Hf).
  exists (length (nodes HT) - Z.to_nat qubits).
  exact (well_formed_forest _ _ Ht Hf).
Qed.

Lemma returned_graph_is_forest_witness :
  generate_hierarchy_tree (pure_score link_score) 3 one_link =
    (Return (merge_tree (initial_tree 3) 0 1), one_link) /\
  exists k, forest (Z.to_nat 3) k (merge_tree (initial_tree 3) 0 1).
Proof.
  split; [reflexivity |].
  apply (returned_graph_is_forest (pure_score link_score) 3 one_link
           (merge_tree (initial_tree 3) 0 1) one_link).
  reflexivity.
Defined.

(** ** Exceptions and normal return *)

Lemma bind_inv_Raise {A B} (c : M A) (k : A -> M B) g e g' :
  bind c k g = (Raise e, g') ->
  c g = (Raise e, g') \/
  exists a g1, c g = (Return a, g1) /\ k a g1 = (Raise e, g').
Proof.
  unfold bind. destruct (c g) as [[a | e1 |] g1]; intros H.
  - right. exists a, g1. auto.
  - left. inversion H; subst. reflexivity.
  - discriminate.
Qed.

Lemma for_each_raise {A S} (P : S -> Prop) (xs : list A)
  (body : A -> S -> M S) :
  (forall x s g s' g', In x xs -> P s ->
     body x s g = (Return s', g') -> P s') ->
  forall s g e g',
    P s -> for_each xs body s g = (Raise e, g') ->
    exists x s1 g1, In x xs /\ P s1 /\ body x s1 g1 = (Raise e, g').
Proof.
  induction xs as [| x xs IH]; intros Hb s g e g' Hs H; simpl in H.
  - discriminate.
  - apply bind_inv_Raise in H. destruct H as [H | (s1 & g1 & H1 & H2)].
    + exists x, s, g. split; [left; reflexivity | auto].
    + destruct (IH (fun y t h t' h' Hy => Hb y t h t' h' (or_intror Hy))
                  s1 g1 e g') as (y & t & h & Hy & Ht & Hbody).
      * apply (Hb x s g s1 g1); [left; reflexivity | exact Hs | exact H1].
      * exact H2.
      * exists y, t, h. split; [right; exact Hy | auto].
Qed.

Lemma for_each_total {A S} (P : S -> Prop) (xs : list A)
  (body : A -> S -> M S) :
  (forall x s g, In x xs -> P s ->
     exists s' g', body x s g = (Return s', g') /\ P s') ->
  forall s g,
    P s -> exists s' g', for_each xs body s g = (Return s', g') /\ P s'.
Proof.
  induction xs as [| x xs IH]; intros Hb s g Hs; simpl.
  - exists s, g. auto.
  - destruct (Hb x s g (or_introl eq_refl) Hs) as (s1 & g1 & H1 & Hs1).
    rewrite (bind_Return _ _ _ _ _ H1).
    apply IH; [| exact Hs1].
    intros y t h Hy. apply Hb. right. exact Hy.
Qed.

Lemma scan_body_keeps_number Fs its i j st g st' g' :
  max_is_number st ->
  scan_body Fs its i j st g = (Return st', g') -> max_is_number st'.
Proof.
  intros [q Hq] H. unfold scan_body in H.
  apply bind_inv_Return in H. destruct H as (f & g1 & _ & H).
  apply bind_inv_Return in H. destruct H as (c & g2 & Hc & H).
  destruct c; inversion H; subst; [| exists q; exact Hq].
  destruct f as [| qf]; [discriminate Hc |]. exists qf. reflexivity.
Qed.

Lemma scan_body_raise Fs its i j st g e g' :
  max_is_number st ->
  scan_body Fs its i j st g = (Raise e, g') ->
  (exists A B g1, Fs A B g1 = (Raise e, g')) \/
  (e = TypeError /\ exists A B g1, Fs A B g1 = (Return PyNone, g')).
Proof.
  intros [q Hq] H. unfold scan_body in H.
  apply bind_inv_Raise in H. destruct H as [H | (f & g1 & Hf & H)].
  - left. eauto.
  - apply bind_inv_Raise in H. destruct H as [H | (c & g2 & Hc & H)].
    + rewrite Hq in H. destruct f as [| qf]; [| discriminate H].
      inversion H; subst. right. split; [reflexivity | eauto].
    + destruct c; discriminate H.
Qed.

Lemma find_pair_raise Fs its g e g' :
  find_pair Fs its g = (Raise e, g') ->
  (exists A B g1, Fs A B g1 = (Raise e, g')) \/
  (e = TypeError /\ exists A B g1, Fs A B g1 = (Return PyNone, g')).
Proof.
  intros H. unfold find_pair in H.
  assert (Hin : forall i s h s' h',
             max_is_number s ->
             for_each (range (i + 1) (length its)) (scan_body Fs its i) s h =
               (Return s', h') -> max_is_number s').
  { intros i s h s' h' Hs Hrun.
    refine (for_each_inv max_is_number _ _ _ _ _ _ _ Hs Hrun).
    intros j t h1 t' h1' _ Ht Hb.
    exact (scan_body_keeps_number _ _ _ _ _ _ _ _ Ht Hb). }
  assert (H0 : max_is_number (PyNum (-1 # 1), @None (nat * nat)))
    by (exists (-1 # 1)%Q; reflexivity).
  destruct (for_each_raise max_is_number _ _
              (fun i s h s' h' _ => Hin i s h s' h') _ _ _ _ H0 H)
    as (i & s1 & g1 & _ & Hs1 & Hr).
  destruct (for_each_raise max_is_number _ _
              (fun j t h t' h' _ Ht Hb =>
                 scan_body_keeps_number _ _ _ _ _ _ _ _ Ht Hb)
              _ _ _ _ Hs1 Hr)
    as (j & s2 & g2 & _ & Hs2 & Hr2).
  exact (scan_body_raise _ _ _ _ _ _ _ _ Hs2 Hr2).
Qed.

Lemma while_loop_raise Fs N : forall fuel HT its g e g',
  tree_inv N (mkState HT its) ->
  while_loop Fs fuel HT its g = (Raise e, g') ->
  (exists A B g1, Fs A B g1 = (Raise e, g')) \/
  (e = TypeError /\ exists A B g1, Fs A B g1 = (Return PyNone, g')).
Proof.
  induction fuel as [| fuel IH]; intros HT its g e g' Ht H; simpl in H.
  - destruct (1 <? length its); discriminate.
  - destruct (1 <? length its); [| discriminate].
    apply bind_inv_Raise in H.
    destruct H as [H | ([fm p] & g1 & Hfind & H)];
      [exact (find_pair_raise _ _ _ _ _ H) |].
    destruct p as [[A B] |]; simpl in H; [| discriminate].
    pose proof (inv_sorted _ _ Ht) as Hs. simpl in Hs.
    destruct (find_pair_sorted_items _ _ _ _ _ _ _ Hs Hfind)
      as (HA & HB & HAB).
    unfold bind in H at 1.
    rewrite merge_items_eq in H
      by (auto using StronglySorted_lt_NoDup; lia).
    apply (IH _ _ _ _ _ (tree_inv_merge _ _ _ _ _ Ht HA HB ltac:(lia)) H).
Qed.

(** X2: the only exceptions [generate_hierarchy_tree] raises are the ones
    the score function raises and the [TypeError] of comparing a score
    that is [None]; the coupling graph is then as the failing call of the
    score function left it.  In particular the two calls of
    [unmerged_items.remove] never raise [ValueError]. *)
Theorem exceptions_come_from_the_score Fs qubits g e g' :
  generate_hierarchy_tree Fs qubits g = (Raise e, g') ->
  (exists A B g1, Fs A B g1 = (Raise e, g')) \/
  (e = TypeError /\ exists A B g1, Fs A B g1 = (Return PyNone, g')).
Proof.
  intros H.
  exact (while_loop_raise Fs (Z.to_nat qubits) _ _ _ _ _ _
           (tree_inv_initial qubits) H).
Qed.

Lemma exceptions_come_from_the_score_witness :
  generate_hierarchy_tree F 2 one_link = (Raise TypeError, one_link) /\
  ((exists A B g1, F A B g1 = (Raise TypeError, one_link)) \/
   (TypeError = TypeError /\
    exists A B g1, F A B g1 = (Return PyNone, one_link))).
Proof.
  split; [reflexivity |].
  apply (exceptions_come_from_the_score F 2 one_link TypeError one_link).
  reflexivity.
Defined.

Lemma find_pair_numeric Fs its g :
  numeric Fs ->
  exists fm p g', find_pair Fs its g = (Return (fm, p), g').
Proof.
  intros HF. unfold find_pair.
  destruct (for_each_total max_is_number (range 0 (length its))
              (fun i => for_each (range (i + 1) (length its))
                          (scan_body Fs its i)))
    with (s := (PyNum (-1 # 1), @None (nat * nat))) (g := g)
    as ([fm p] & g' & H & _).
  - intros i s h _ Hs.
    apply for_each_total; [| exact Hs].
    intros j [t1 t2] h1 _ [q Hq]. simpl in Hq. subst t1.
    unfold scan_body.
    destruct (HF (nth i its 0) (nth j its 0) h1) as (qf & h2 & Hcall).
    rewrite (bind_Return _ _ _ _ _ Hcall). simpl. unfold bind, ret. simpl.
    destruct (Qgtb qf q); eexists; eexists; (split; [reflexivity |]);
      eexists; reflexivity.
  - exists (-1 # 1)%Q. reflexivity.
  - exists fm, p, g'. exact H.
Qed.

Lemma while_loop_numeric Fs N :
  numeric Fs ->
  forall fuel HT its g,
    tree_inv N (mkState HT its) -> length its <= S fuel ->
    exists HT' g', while_loop Fs fuel HT its g = (Return HT', g').
Proof.
  intros HF. induction fuel as [| fuel IH]; intros HT its g Ht Hlen.
  - exists HT, g. apply while_loop_done. lia.
  - destruct (Nat.ltb_spec 1 (length its)) as [Hl | Hl];
      [| exists HT, g; apply while_loop_done; exact Hl].
    destruct (find_pair_numeric Fs its g HF) as (fm & p & g1 & Hfind).
    destruct p as [[A B] |];
      [| exists HT, g1; exact (while_loop_break _ _ _ _ _ _ _ Hl Hfind)].
    pose proof (inv_sorted _ _ Ht) as Hs. simpl in Hs.
    destruct (find_pair_sorted_items _ _ _ _ _ _ _ Hs Hfind)
      as (HA & HB & HAB).
    assert (Hnd : NoDup its) by exact (StronglySorted_lt_NoDup _ Hs).
    pose proof (drop_length A its Hnd HA) as L1.
    assert (HB' : In B (drop A its)) by (apply drop_In; split; [auto | lia]).
    pose proof (drop_length B (drop A its) (NoDup_filter _ Hnd) HB') as L2.
    destruct (IH (merge_tree HT A B)
                (drop B (drop A its) ++ [length (nodes HT)]) g1
                (tree_inv_merge _ _ _ _ _ Ht HA HB ltac:(lia)))
      as (HT' & g' & Hrun).
    { rewrite length_app. simpl. lia. }
    exists HT', g'. simpl.
    replace (1 <? length its) with true
      by (symmetry; apply Nat.ltb_lt; exact Hl).
    rewrite (bind_Return _ _ _ _ _ Hfind). simpl.
    rewrite (bind_Return _ _ _ _ _
               (merge_items_eq g1 HT its A B Hnd HA HB ltac:(lia))).
    exact Hrun.
Qed.

(** X3: with a score function that always returns a number, even one that
    writes to the coupling graph, [generate_hierarchy_tree] returns a
    graph: it raises nothing and the loop ends within the qubit count of
    iterations. *)
Theorem numeric_score_returns Fs qubits g :
  numeric Fs ->
  exists HT g', generate_hierarchy_tree Fs qubits g = (Return HT, g').
Proof.
  intros HF.
  apply (while_loop_numeric Fs (Z.to_nat qubits) HF);
    [apply tree_inv_initial |].
  rewrite initial_tree_eq. unfold node_ids. simpl.
  rewrite blank_nodes_ids, length_seq. lia.
Qed.

Lemma numeric_score_returns_witness :
  numeric (effectful (fun A B => inject_Z (Z.of_nat (A + B))) record_call) /\
  exists HT g',
    generate_hierarchy_tree
      (effectful (fun A B => inject_Z (Z.of_nat (A + B))) record_call)
      3 one_link = (Return HT, g').
Proof.
  assert (H : numeric (effectful (fun A B => inject_Z (Z.of_nat (A + B)))
                         record_call)).
  { intros A B g. eexists. eexists. reflexivity. }
  split; [exact H |].
  exact (numeric_score_returns _ 3 one_link H).
Defined.

(** ** Where the loop stops *)

Lemma scan_pairs_none f g ps : forall q,
  snd (scan_pairs f g ps (q, None)) = None ->
  forall x, In x ps -> (score f g x <= q)%Q.
Proof.
  induction ps as [| y ps IH]; intros q H x Hx; [contradiction |].
  rewrite scan_pairs_cons in H.
  destruct (scan_step_cases f g q None y) as [[E _] | [E Hle]];
    rewrite E in H.
  - destruct (scan_pairs_some f g ps (score f g y) y) as (q' & z & E').
    rewrite E' in H. discriminate H.
  - destruct Hx as [<- | Hx]; [exact Hle | exact (IH q H x Hx)].
Qed.

Lemma find_pair_stops f g its fm :
  StronglySorted lt its ->
  find_pair (pure_score f) its g = (Return (fm, None), g) ->
  forall A B, In A its -> In B its -> A < B -> (f A B g <= -1 # 1)%Q.
Proof.
  intros Hs H A B HA HB HAB. rewrite find_pair_pure in H.
  assert (Hnone : snd (scan_pairs f g (all_pairs its) ((-1 # 1)%Q, None))
                  = None) by congruence.
  apply (scan_pairs_none f g _ _ Hnone (A, B)).
  apply all_pairs_In_sorted; auto.
Qed.

Lemma run_to_stop f g qubits : forall fuel k s,
  iteration f g qubits k s ->
  length (items s) <= S fuel ->
  exists k' s',
    iteration f g qubits k' s' /\
    (length (items s') <= 1 \/
     forall A B, In A (items s') -> In B (items s') -> A < B ->
                 (f A B g <= -1 # 1)%Q) /\
    while_loop (pure_score f) fuel (tree s) (items s) g =
      (Return (tree s'), g).
Proof.
  induction fuel as [| fuel IH]; intros k s Hit Hlen.
  - exists k, s. split; [exact Hit |]. split; [left; lia |].
    apply while_loop_done. lia.
  - destruct (Nat.ltb_spec 1 (length (items s))) as [Hl | Hl].
    2:{ exists k, s. split; [exact Hit |]. split; [left; exact Hl |].
        apply while_loop_done. exact Hl. }
    destruct (iteration_inv f g qubits k s Hit) as (Hinv & _).
    pose proof (inv_sorted _ _ Hinv) as Hs.
    pose proof (find_pair_pure f g (items s)) as Hfind.
    destruct (scan_pairs f g (all_pairs (items s)) ((-1 # 1)%Q, None))
      as [q p] eqn:Hscan.
    simpl in Hfind. destruct p as [[A B] |].
    + destruct (find_pair_selected f g _ _ A B Hs Hfind)
        as (HA & HB & HAB & _).
      assert (Hstep : merge_step f g s
                (mkState (merge_tree (tree s) A B)
                   (drop B (drop A (items s)) ++ [length (nodes (tree s))]))).
      { destruct s as [HT its]. simpl in *.
        apply (merge_step_intro f g HT its (PyNum q) A B);
          [lia | exact Hfind |].
        apply merge_items_eq; auto using StronglySorted_lt_NoDup. lia. }
      destruct (merge_step_inv f g _ _ _ Hinv Hstep) as (_ & _ & Hlen').
      destruct (IH (S k) _ (iteration_next _ _ _ _ _ _ Hit Hstep)
                  ltac:(lia)) as (k' & s' & Hit' & Hstop & Hrun).
      exists k', s'. split; [exact Hit' |]. split; [exact Hstop |].
      rewrite (while_loop_merge f g fuel _ _ Hstep). exact Hrun.
    + exists k, s. split; [exact Hit |]. split.
      * right. exact (find_pair_stops f g _ _ Hs Hfind).
      * exact (while_loop_break g _ _ _ _ _ _ Hl Hfind).
Qed.

(** X4: for every score function that returns numbers and only reads the
    coupling graph, [generate_hierarchy_tree] returns the forest of the
    first iteration at which at most one item is left or no pair of
    unmerged items scores above -1; the roots of the returned forest are
    the unmerged items of that iteration, and the number of merges plus the
    number of roots is the qubit count. *)
Theorem builder_stops_at_first_low_scan f g qubits :
  exists k s,
    iteration f g qubits k s /\
    generate_hierarchy_tree (pure_score f) qubits g = (Return (tree s), g) /\
    roots (tree s) = items s /\
    length (items s) + k = Z.to_nat qubits /\
    (length (items s) <= 1 \/
     forall A B, In A (items s) -> In B (items s) -> A < B ->
                 (f A B g <= -1 # 1)%Q).
Proof.
  destruct (run_to_stop f g qubits (Z.to_nat qubits) 0
              (initial_state qubits) (iteration_first f g qubits))
    as (k & s & Hit & Hstop & Hrun).
  { destruct (iteration_inv f g qubits 0 _ (iteration_first f g qubits))
      as (_ & _ & Hlen). lia. }
  destruct (iteration_inv f g qubits k s Hit) as (Hinv & _ & Hcount).
  exists k, s. repeat split; try assumption.
  apply (inv_roots _ _ Hinv).
Qed.

(** ** The number of iterations *)

Lemma while_loop_S Fs fuel HT its g :
  while_loop Fs (S fuel) HT its g =
  if 1 <? length its then
    bind (find_pair Fs its)
      (fun st =>
         match snd st with
         | None => ret HT
         | Some (A, B) =>
             bind (merge_items HT its A B)
               (fun u => while_loop Fs fuel (merge_tree HT A B) u)
         end) g
  else (Return HT, g).
Proof. simpl. destruct (1 <? length its); reflexivity. Qed.

Lemma while_loop_more_fuel Fs : forall fuel HT its g,
  fst (while_loop Fs fuel HT its g) <> OutOfFuel ->
  while_loop Fs (S fuel) HT its g = while_loop Fs fuel HT its g.
Proof.
  induction fuel as [| fuel IH]; intros HT its g H.
  - simpl in H. simpl. destruct (1 <? length its); [| reflexivity].
    exfalso. apply H. reflexivity.
  - rewrite (while_loop_S Fs (S fuel)). rewrite (while_loop_S Fs fuel) in *.
    destruct (1 <? length its); [| reflexivity].
    unfold bind at 1 3. unfold bind at 1 in H.
    destruct (find_pair Fs its g) as [[[fm p] | e |] g1]; try reflexivity.
    cbn [snd] in *.
    destruct p as [[A B] |]; [| reflexivity].
    unfold bind at 1 2. unfold bind at 1 in H.
    destruct (merge_items HT its A B g1) as [[u | e |] g2]; try reflexivity.
    exact (IH _ _ _ H).
Qed.

Lemma while_loop_any_fuel Fs fuel HT its g : forall extra,
  fst (while_loop Fs fuel HT its g) <> OutOfFuel ->
  while_loop Fs (extra + fuel) HT its g = while_loop Fs fuel HT its g.
Proof.
  induction extra as [| extra IH]; intros H; [reflexivity |].
  simpl plus. rewrite while_loop_more_fuel; rewrite (IH H); auto.
Qed.

(** X5: the loop body runs at most N-1 times (not at all for N <= 1): for
    every score function that terminates, allowing N-1 iterations already
    gives an outcome, and allowing more changes nothing. *)
Theorem at_most_qubits_minus_one_iterations Fs qubits g fuel :
  (forall A B, terminates (Fs A B)) ->
  Z.to_nat qubits - 1 <= fuel ->
  fst (generate_hierarchy_tree_fuel (Z.to_nat qubits - 1) Fs qubits g)
    <> OutOfFuel /\
  generate_hierarchy_tree_fuel fuel Fs qubits g =
    generate_hierarchy_tree_fuel (Z.to_nat qubits - 1) Fs qubits g /\
  generate_hierarchy_tree Fs qubits g =
    generate_hierarchy_tree_fuel (Z.to_nat qubits - 1) Fs qubits g.
Proof.
  intros HF Hfuel.
  assert (H : fst (generate_hierarchy_tree_fuel (Z.to_nat qubits - 1)
                     Fs qubits g) <> OutOfFuel).
  { unfold generate_hierarchy_tree_fuel.
    apply while_loop_fuel_enough; [exact HF |].
    rewrite initial_tree_eq. unfold node_ids. simpl.
    rewrite blank_nodes_ids, length_seq. lia. }
  split; [exact H |].
  unfold generate_hierarchy_tree, generate_hierarchy_tree_fuel in *.
  split.
  - replace fuel with ((fuel - (Z.to_nat qubits - 1))
                       + (Z.to_nat qubits - 1)) by lia.
    apply while_loop_any_fuel. exact H.
  - replace (Z.to_nat qubits) with
      ((Z.to_nat qubits - (Z.to_nat qubits - 1))
       + (Z.to_nat qubits - 1)) at 1 by lia.
    apply while_loop_any_fuel. exact H.
Qed.

Lemma at_most_qubits_minus_one_iterations_witness :
  generate_hierarchy_tree_fuel 7 (pure_score (const_score 0)) 4 isolated4 =
    generate_hierarchy_tree_fuel (Z.to_nat 4 - 1)
      (pure_score (const_score 0)) 4 isolated4.
Proof.
  apply (at_most_qubits_minus_one_iterations
           (pure_score (const_score 0)) 4 isolated4 7).
  - intros A B g. discriminate.
  - simpl. lia.
Defined.

(** ** Which pairs are scored *)

Lemma for_each_ext {A S} (xs : list A) (body body' : A -> S -> M S) :
  (forall x s g, In x xs -> body x s g = body' x s g) ->
  forall s g, for_each xs body s g = for_each xs body' s g.
Proof.
  induction xs as [| x xs IH]; intros Hb s g; simpl; [reflexivity |].
  unfold bind. rewrite (Hb x s g (or_introl eq_refl)).
  destruct (body' x s g) as [[s1 | e |] g1]; try reflexivity.
  apply IH. intros y t h Hy. apply Hb. right. exact Hy.
Qed.

Lemma find_pair_ext Fs Fs' its g :
  StronglySorted lt its ->
  (forall A B h, A < B -> Fs A B h = Fs' A B h) ->
  find_pair Fs its g = find_pair Fs' its g.
Proof.
  intros Hs Hagree. unfold find_pair.
  apply for_each_ext. intros i s h Hi.
  apply for_each_ext. intros j t h1 Hj.
  unfold range in Hi, Hj. apply in_seq in Hi, Hj.
  unfold scan_body, bind.
  rewrite (Hagree (nth i its 0) (nth j its 0) h1); [reflexivity |].
  apply sorted_nth_lt; [exact Hs | lia].
Qed.

Lemma while_loop_ext Fs Fs' N :
  (forall A B h, A < B -> Fs A B h = Fs' A B h) ->
  forall fuel HT its g,
    tree_inv N (mkState HT its) ->
    while_loop Fs fuel HT its g = while_loop Fs' fuel HT its g.
Proof.
  intros Hagree. induction fuel as [| fuel IH]; intros HT its g Ht;
    [reflexivity |].
  simpl. destruct (1 <? length its); [| reflexivity].
  pose proof (inv_sorted _ _ Ht) as Hs. simpl in Hs.
  unfold bind at 1 3. rewrite <- (find_pair_ext Fs Fs' its g Hs Hagree).
  destruct (find_pair Fs its g) as [[[fm p] | e |] g1] eqn:Hfind;
    try reflexivity.
  simpl. destruct p as [[A B] |]; [| reflexivity].
  destruct (find_pair_sorted_items _ _ _ _ _ _ _ Hs Hfind)
    as (HA & HB & HAB).
  unfold bind.
  rewrite merge_items_eq by (auto using StronglySorted_lt_NoDup; lia).
  apply IH. apply tree_inv_merge; auto. lia.
Qed.

(** X6: the builder only evaluates the score function on pairs whose first
    item has the smaller identifier: two score functions that agree on
    every (A, B) with A < B give the same outcome and leave the same
    coupling graph, whatever they do on the other pairs. *)
Theorem only_increasing_pairs_are_scored Fs Fs' qubits g :
  (forall A B h, A < B -> Fs A B h = Fs' A B h) ->
  generate_hierarchy_tree Fs qubits g = generate_hierarchy_tree Fs' qubits g.
Proof.
  intros Hagree.
  exact (while_loop_ext Fs Fs' (Z.to_nat qubits) Hagree _ _ _ g
           (tree_inv_initial qubits)).
Qed.

Lemma only_increasing_pairs_are_scored_witness :
  generate_hierarchy_tree
    (fun A B => if A <? B then pure_score link_score A B else F A B)
    3 one_link =
  generate_hierarchy_tree (pure_score link_score) 3 one_link.
Proof.
  apply (only_increasing_pairs_are_scored
           (fun A B => if A <? B then pure_score link_score A B else F A B)
           (pure_score link_score) 3 one_link).
  intros A B h HAB.
  replace (A <? B) with true by (symmetry; apply Nat.ltb_lt; exact HAB).
  reflexivity.
Defined.

(** ** Edge cases of the qubit count and of the first call *)

(** X7: a qubit count of zero or below is accepted silently: for every
    negative count too, [range(qubits)] is empty, the score function is
    never called, and the empty graph is returned. *)
Theorem nonpositive_qubits_empty_graph Fs qubits g :
  (qubits <= 0)%Z ->
  generate_hierarchy_tree Fs qubits g = (Return empty_graph, g).
Proof.
  intros H. unfold generate_hierarchy_tree, generate_hierarchy_tree_fuel.
  rewrite initial_tree_eq.
  replace (Z.to_nat qubits) with 0 by lia. reflexivity.
Qed.

Lemma nonpositive_qubits_empty_graph_witness :
  generate_hierarchy_tree F (-5) one_link = (Return empty_graph, one_link).
Proof.
  apply (nonpositive_qubits_empty_graph F (-5) one_link). lia.
Defined.

(** X8: with at least two qubits the first thing the builder evaluates is
    F(0, 1) on the coupling graph as passed in; an exception raised there
    is not caught: the builder raises it and the coupling graph is as that
    call left it. *)
Theorem first_call_exception_propagates Fs qubits g e g1 :
  (2 <= qubits)%Z ->
  Fs 0 1 g = (Raise e, g1) ->
  generate_hierarchy_tree Fs qubits g = (Raise e, g1).
Proof.
  intros Hq H.
  unfold generate_hierarchy_tree, generate_hierarchy_tree_fuel.
  rewrite initial_tree_eq. unfold node_ids. cbn [nodes].
  rewrite blank_nodes_ids.
  destruct (Z.to_nat qubits) as [| [| n]] eqn:E; try lia.
  cbn -[blank_nodes]. unfold scan_body, bind. cbn. rewrite H. reflexivity.
Qed.

Lemma first_call_exception_propagates_witness :
  generate_hierarchy_tree
    (fun A B g => (Raise ValueError, record_call A B g)) 3 one_link =
  (Raise ValueError, record_call 0 1 one_link).
Proof.
  apply (first_call_exception_propagates
           (fun A B g => (Raise ValueError, record_call A B g)) 3 one_link).
  - lia.
  - reflexivity.
Defined.

(** ** The calls of the score function, in order *)

Section Effects.
Variable f : nat -> nat -> Q.
Variable eff : nat -> nat -> Graph -> Graph.

Lemma scan_body_effectful l i j q p g :
  scan_body (effectful f eff) l i j (PyNum q, p) g =
  (Return
     (PyNum (fst (scan_step (ignore_graph f) cg0 (q, p)
                    (nth i l 0, nth j l 0))),
      snd (scan_step (ignore_graph f) cg0 (q, p) (nth i l 0, nth j l 0))),
   eff (nth i l 0) (nth j l 0) g).
Proof.
  unfold scan_body, scan_step, effectful, ignore_graph, bind, py_gt, ret.
  simpl. destruct (Qgtb _ q); reflexivity.
Qed.

Lemma effects_app ps1 ps2 g :
  effects eff (ps1 ++ ps2) g = effects eff ps2 (effects eff ps1 g).
Proof. unfold effects. apply fold_left_app. Qed.

Lemma inner_for_effectful l i : forall suf pre q p g,
  l = pre ++ suf ->
  for_each (seq (length pre) (length suf)) (scan_body (effectful f eff) l i)
    (PyNum q, p) g =
  (Return
     (PyNum (fst (scan_pairs (ignore_graph f) cg0
                    (map (pair (nth i l 0)) suf) (q, p))),
      snd (scan_pairs (ignore_graph f) cg0
             (map (pair (nth i l 0)) suf) (q, p))),
   effects eff (map (pair (nth i l 0)) suf) g).
Proof.
  induction suf as [| b suf IH]; intros pre q p g Hl.
  - reflexivity.
  - simpl seq. simpl for_each.
    erewrite bind_Return by apply scan_body_effectful.
    assert (Hb : nth (length pre) l 0 = b).
    { subst l. rewrite app_nth2, Nat.sub_diag by lia. reflexivity. }
    rewrite Hb.
    specialize (IH (pre ++ [b])). rewrite length_app in IH. simpl in IH.
    rewrite Nat.add_1_r in IH.
    destruct (scan_step (ignore_graph f) cg0 (q, p) (nth i l 0, b))
      as [q' p'] eqn:E.
    simpl fst. simpl snd.
    rewrite IH by (rewrite <- app_assoc; exact Hl).
    simpl. unfold scan_pairs. simpl. rewrite E. reflexivity.
Qed.

Lemma outer_for_effectful l : forall suf pre q p g,
  l = pre ++ suf ->
  for_each (seq (length pre) (length suf))
    (fun i => for_each (range (i + 1) (length l))
                (scan_body (effectful f eff) l i))
    (PyNum q, p) g =
  (Return
     (PyNum (fst (scan_pairs (ignore_graph f) cg0 (all_pairs suf) (q, p))),
      snd (scan_pairs (ignore_graph f) cg0 (all_pairs suf) (q, p))),
   effects eff (all_pairs suf) g).
Proof.
  induction suf as [| a suf IH]; intros pre q p g Hl.
  - reflexivity.
  - simpl seq. simpl for_each.
    assert (Ha : nth (length pre) l 0 = a).
    { subst l. rewrite app_nth2, Nat.sub_diag by lia. reflexivity. }
    assert (Hr : range (length pre + 1) (length l) =
                 seq (length (pre ++ [a])) (length suf)).
    { unfold range. rewrite length_app. simpl. f_equal.
      subst l. rewrite length_app. simpl. lia. }
    rewrite Hr.
    erewrite bind_Return
      by (apply inner_for_effectful; rewrite <- app_assoc; exact Hl).
    rewrite Ha.
    specialize (IH (pre ++ [a])). rewrite length_app in IH. simpl in IH.
    rewrite Nat.add_1_r in IH.
    destruct (scan_pairs (ignore_graph f) cg0 (map (pair a) suf) (q, p))
      as [q' p'] eqn:E.
    simpl fst. simpl snd.
    rewrite IH by (rewrite <- app_assoc; exact Hl).
    simpl all_pairs. rewrite effects_app.
    unfold scan_pairs in *. rewrite fold_left_app, E. reflexivity.
Qed.

Lemma find_pair_effectful l g :
  find_pair (effectful f eff) l g =
  (Return
     (PyNum (fst (scan_pairs (ignore_graph f) cg0 (all_pairs l)
                    ((-1 # 1)%Q, None))),
      snd (scan_pairs (ignore_graph f) cg0 (all_pairs l)
             ((-1 # 1)%Q, None))),
   effects eff (all_pairs l) g).
Proof.
  unfold find_pair, range. rewrite Nat.sub_0_r.
  apply (outer_for_effectful l l []). reflexivity.
Qed.

Lemma all_pairs_length l : length (all_pairs l) = pair_count (length l).
Proof.
  induction l as [| a l IH]; simpl; [reflexivity |].
  rewrite length_app, length_map, IH. reflexivity.
Qed.

Lemma pair_count_closed n : 2 * pair_count (S n) = S n * n.
Proof.
  induction n as [| n IH]; [reflexivity |].
  change (pair_count (S (S n))) with (S n + pair_count (S n)). nia.
Qed.

Lemma total_calls_closed n : 6 * total_calls (S n) = n * S n * S (S n).
Proof.
  induction n as [| n IH]; [reflexivity |].
  change (total_calls (S (S n)))
    with (pair_count (S (S n)) + total_calls (S n)).
  pose proof (pair_count_closed (S n)). nia.
Qed.


Lemma merge_items_any_graph HT its A B g u g1 h :
  merge_items HT its A B g = (Return u, g1) ->
  merge_items HT its A B h = (Return u, h).
Proof.
  unfold merge_items, list_remove, bind, ret, raise.
  destruct (remove_first its A) as [u1 |]; [| discriminate].
  destruct (remove_first u1 B) as [u2 |]; [| discriminate].
  intros H. inversion H; subst. reflexivity.
Qed.

Lemma while_loop_merge_effectful g s s' :
  merge_step (ignore_graph f) g s s' ->
  forall fuel h,
    while_loop (effectful f eff) (S fuel) (tree s) (items s) h =
    while_loop (effectful f eff) fuel (tree s') (items s')
      (effects eff (all_pairs (items s)) h).
Proof.
  intros Hstep fuel h.
  inversion Hstep as [HT its fmax A B its' Hlen Hfind Hmerge]; subst.
  cbn [tree items]. rewrite while_loop_S.
  replace (1 <? length its) with true
    by (symmetry; apply Nat.ltb_lt; exact Hlen).
  rewrite find_pair_pure in Hfind.
  assert (Hp : snd (scan_pairs (ignore_graph f) cg0 (all_pairs its)
                      ((-1 # 1)%Q, None)) = Some (A, B)).
  { change (snd (scan_pairs (ignore_graph f) g (all_pairs its)
                   ((-1 # 1)%Q, None)) = Some (A, B)).
    congruence. }
  rewrite (bind_Return _ _ _ _ _ (find_pair_effectful its h)).
  cbn [snd]. rewrite Hp.
  rewrite (bind_Return _ _ _ _ _
             (merge_items_any_graph _ _ _ _ _ _ _
                (effects eff (all_pairs its) h) Hmerge)).
  reflexivity.
Qed.

Lemma run_effectful g qubits :
  (forall A B, (-1 # 1 < f A B)%Q) ->
  forall m k s fuel h,
    iteration (ignore_graph f) g qubits k s ->
    length (items s) = S m -> m <= fuel ->
    exists s' calls,
      iteration (ignore_graph f) g qubits (k + m) s' /\
      length (items s') = 1 /\
      while_loop (effectful f eff) fuel (tree s) (items s) h =
        (Return (tree s'), effects eff calls h) /\
      length calls = total_calls (S m) /\
      (forall p, In p calls -> fst p < snd p).
Proof.
  intros Hpos. induction m as [| m IH]; intros k s fuel h Hit Hlen Hfuel.
  - exists s, []. rewrite Nat.add_0_r.
    repeat split; auto; try contradiction.
    apply while_loop_done. lia.
  - destruct fuel as [| fuel]; [lia |].
    destruct (iteration_inv _ g qubits k s Hit) as (Hinv & _).
    destruct (find_pair_some (ignore_graph f) g (items s) ltac:(lia)
                (fun A B => Hpos A B)) as (fm & A & B & Hf).
    pose proof (inv_sorted _ _ Hinv) as Hs.
    destruct (find_pair_selected _ g _ _ _ _ Hs Hf) as (HA & HB & HAB & _).
    assert (Hstep : merge_step (ignore_graph f) g s
              (mkState (merge_tree (tree s) A B)
                 (drop B (drop A (items s)) ++ [length (nodes (tree s))]))).
    { destruct s as [HT its]. simpl in *.
      apply (merge_step_intro _ g HT its fm A B); [lia | exact Hf |].
      apply merge_items_eq; auto using StronglySorted_lt_NoDup. lia. }
    destruct (merge_step_inv _ g _ _ _ Hinv Hstep) as (_ & _ & Hlen').
    destruct (IH (S k) _ fuel (effects eff (all_pairs (items s)) h)
                (iteration_next _ _ _ _ _ _ Hit Hstep) ltac:(lia) ltac:(lia))
      as (s' & calls & Hit' & Hone & Hrun & Hcount & Hinc).
    exists s', (all_pairs (items s) ++ calls).
    replace (k + S m) with (S k + m) by lia.
    split; [exact Hit' |]. split; [exact Hone |]. split; [| split].
    + rewrite (while_loop_merge_effectful g _ _ Hstep), effects_app.
      exact Hrun.
    + rewrite length_app, all_pairs_length, Hlen, Hcount. reflexivity.
    + intros [a b] Hin. apply in_app_or in Hin.
      destruct Hin as [Hin | Hin]; [| exact (Hinc _ Hin)].
      apply (all_pairs_In_sorted _ _ _ Hs) in Hin. simpl. tauto.
Qed.
End Effects.


(** X10: when every score is above -1 and does not depend on the coupling
    graph, merging N >= 1 qubits down to one tree evaluates the score
    function exactly (N-1)N(N+1)/6 times, always with the smaller
    identifier first; whatever these calls do to the coupling graph, the
    tree is the one built with the same scores and no effect. *)
Theorem full_merge_call_count f eff g qubits :
  (1 <= qubits)%Z ->
  (forall A B, (-1 # 1 < f A B)%Q) ->
  exists HT calls,
    generate_hierarchy_tree (effectful f eff) qubits g =
      (Return HT, effects eff calls g) /\
    generate_hierarchy_tree (pure_score (ignore_graph f)) qubits g =
      (Return HT, g) /\
    length calls = total_calls (Z.to_nat qubits) /\
    6 * total_calls (Z.to_nat qubits) =
      (Z.to_nat qubits - 1) * Z.to_nat qubits * (Z.to_nat qubits + 1) /\
    (forall p, In p calls -> fst p < snd p).
Proof.
  intros Hq Hpos.
  destruct (Z.to_nat qubits) as [| n] eqn:EN; [lia |].
  pose proof (iteration_first (ignore_graph f) g qubits) as H0.
  destruct (iteration_inv _ g qubits 0 _ H0) as (_ & _ & Hlen).
  destruct (run_effectful f eff g qubits Hpos n 0 (initial_state qubits)
              (S n) g H0 ltac:(lia) ltac:(lia))
    as (s & calls & Hit & Hone & Hrun & Hcount & Hinc).
  exists (tree s), calls. split; [| split; [| split; [| split]]].
  - unfold generate_hierarchy_tree, generate_hierarchy_tree_fuel.
    rewrite EN. exact Hrun.
  - unfold generate_hierarchy_tree. rewrite EN.
    replace (S n) with (0 + n + 1) by lia.
    rewrite (iteration_run _ g qubits _ s Hit 1).
    apply while_loop_done. lia.
  - exact Hcount.
  - rewrite total_calls_closed. nia.
  - exact Hinc.
Qed.

Lemma full_merge_call_count_witness :
  (1 <= 4)%Z /\
  exists HT calls,
    generate_hierarchy_tree (effectful (fun _ _ => 0%Q) record_call) 4
      isolated4 = (Return HT, effects record_call calls isolated4) /\
    length calls = total_calls (Z.to_nat 4).
Proof.
  split; [lia |].
  destruct (full_merge_call_count (fun _ _ => 0%Q) record_call isolated4 4
              ltac:(lia) (fun _ _ => eq_refl))
    as (HT & calls & H1 & _ & H2 & _).
  exists HT, calls. split; [exact H1 | exact H2].
Defined.

(** ** Only the order of the scores matters *)

Lemma scan_pairs_rank f f' g ps : forall q q' p,
  (forall x, (q < score f g x)%Q <-> (q' < score f' g x)%Q) ->
  (forall x y, (score f g x < score f g y)%Q <->
               (score f' g x < score f' g y)%Q) ->
  snd (scan_pairs f g ps (q, p)) = snd (scan_pairs f' g ps (q', p)).
Proof.
  induction ps as [| y ps IH]; intros q q' p Hq Hrank; [reflexivity |].
  rewrite !scan_pairs_cons.
  destruct (scan_step_cases f g q p y) as [[-> E] | [-> E]];
    destruct (scan_step_cases f' g q' p y) as [[-> E'] | [-> E']].
  - apply IH; [| exact Hrank]. intros x. apply Hrank.
  - exfalso. apply Hq in E. exact (Qlt_not_le _ _ E E').
  - exfalso. apply Hq in E'. exact (Qlt_not_le _ _ E' E).
  - apply IH; assumption.
Qed.

Lemma while_loop_rank f f' g :
  (forall A B, (-1 # 1 < f A B g)%Q <-> (-1 # 1 < f' A B g)%Q) ->
  (forall A B C D, (f A B g < f C D g)%Q <-> (f' A B g < f' C D g)%Q) ->
  forall fuel HT its,
    while_loop (pure_score f) fuel HT its g =
    while_loop (pure_score f') fuel HT its g.
Proof.
  intros Hlow Hrank. induction fuel as [| fuel IH]; intros HT its;
    [reflexivity |].
  rewrite !while_loop_S. destruct (1 <? length its); [| reflexivity].
  rewrite (bind_Return _ _ _ _ _ (find_pair_pure f g its)).
  rewrite (bind_Return _ _ _ _ _ (find_pair_pure f' g its)).
  cbn [snd].
  rewrite (scan_pairs_rank f f' g (all_pairs its) (-1 # 1)%Q (-1 # 1)%Q None).
  - destruct (snd (scan_pairs f' g (all_pairs its) ((-1 # 1)%Q, None)))
      as [[A B] |]; [| reflexivity].
    unfold bind.
    destruct (merge_items HT its A B g) as [[u | e |] g1] eqn:E;
      try reflexivity.
    assert (g1 = g).
    { pose proof (reads_only_merge_items HT its A B g) as Hr.
      rewrite E in Hr. exact Hr. }
    subst g1. apply IH.
  - intros [A B]. apply Hlow.
  - intros [A B] [C D]. apply Hrank.
Qed.

(** X11: for score functions that return numbers and only read the
    coupling graph, the result depends on the scores only through their
    order and through which of them exceed -1: two score functions that
    compare every two pairs the same way and exceed -1 on the same pairs
    give the same graph. *)
Theorem result_depends_on_score_order_only f f' g qubits :
  (forall A B, (-1 # 1 < f A B g)%Q <-> (-1 # 1 < f' A B g)%Q) ->
  (forall A B C D, (f A B g < f C D g)%Q <-> (f' A B g < f' C D g)%Q) ->
  generate_hierarchy_tree (pure_score f) qubits g =
  generate_hierarchy_tree (pure_score f') qubits g.
Proof.
  intros Hlow Hrank. apply while_loop_rank; assumption.
Qed.

Lemma result_depends_on_score_order_only_witness :
  generate_hierarchy_tree (pure_score link_score) 3 one_link =
  generate_hierarchy_tree (pure_score link_score_wide) 3 one_link.
Proof.
  apply (result_depends_on_score_order_only link_score link_score_wide
           one_link 3).
  - intros A B. unfold link_score, link_score_wide.
    destruct (connected_in one_link A B); split; intros H;
      solve [reflexivity | discriminate H].
  - intros A B C D. unfold link_score, link_score_wide.
    destruct (connected_in one_link A B), (connected_in one_link C D);
      split; intros H; solve [reflexivity | discriminate H].
Defined.


(** ** The tree when every score exceeds -1 *)

(** X12: for every qubit count N >= 1 and every numeric read-only score
    function whose values are all strictly above -1,
    [generate_hierarchy_tree] returns a hierarchy tree in full: its nodes
    are 0 .. 2N-2, its leaves the qubits 0 .. N-1, it has N-1 internal
    nodes, each with exactly two children, no node has two parents, every
    edge goes to a smaller identifier, the last-created node is the only
    root and every node lies below it. *)
Theorem hierarchy_tree_when_scores_exceed_minus_one f g qubits :
  (1 <= qubits)%Z ->
  (forall A B, (-1 # 1 < f A B g)%Q) ->
  exists HT,
    generate_hierarchy_tree (pure_score f) qubits g = (Return HT, g) /\
    hierarchy_tree (Z.to_nat qubits) HT /\
    node_ids HT = seq 0 (2 * Z.to_nat qubits - 1).
Proof.
  intros Hq Hpos.
  destruct (generate_tree f g qubits Hq Hpos) as (s & _ & _ & Hrun & Ht & Hi).
  exists (tree s). split; [exact Hrun |]. split; [| exact Hi].
  split; [exact Ht |].
  destruct (while_loop_forest _ (Z.to_nat qubits) _ _ _ _ _ _
              (tree_inv_initial qubits) (forest_inv_initial qubits) Hrun)
    as (its' & Hti & Hfi).
  pose proof (well_formed_forest _ _ Hti Hfi) as Hf. cbn [tree] in Hf.
  assert (Hlen : length (nodes (tree s)) = 2 * Z.to_nat qubits - 1).
  { unfold node_ids in Hi. rewrite <- (length_map fst), Hi, length_seq.
    reflexivity. }
  replace (Z.to_nat qubits - 1)
    with (length (nodes (tree s)) - Z.to_nat qubits) by lia.
  exact Hf.
Qed.

Lemma hierarchy_tree_when_scores_exceed_minus_one_witness :
  (1 <= 3)%Z /\
  exists HT,
    generate_hierarchy_tree (pure_score (const_score 0)) 3 one_link =
      (Return HT, one_link) /\
    hierarchy_tree (Z.to_nat 3) HT /\
    node_ids HT = seq 0 (2 * Z.to_nat 3 - 1).
Proof.
  split; [lia |].
  apply (hierarchy_tree_when_scores_exceed_minus_one (const_score 0)
           one_link 3).
  - lia.
  - intros A B. reflexivity.
Defined.

(** ** Equal scores, equal merges *)

Lemma Qgtb_equal a a' b b' :
  (a == a')%Q -> (b == b')%Q -> Qgtb a b = Qgtb a' b'.
Proof.
  intros Ha Hb. unfold Qgtb. rewrite (Qcompare_comp _ _ Ha _ _ Hb).
  reflexivity.
Qed.

Section SameScores.
Variables f f' : nat -> nat -> Graph -> Q.
Variables g g' : Graph.
Hypothesis Hsame : forall A B, A < B -> (f A B g == f' A B g')%Q.

Lemma scan_pairs_same ps : forall q q' p,
  (q == q')%Q ->
  (forall x, In x ps -> fst x < snd x) ->
  snd (scan_pairs f g ps (q, p)) = snd (scan_pairs f' g' ps (q', p)).
Proof.
  induction ps as [| y ps IH]; intros q q' p Hq Hinc; [reflexivity |].
  rewrite !scan_pairs_cons. unfold scan_step. cbn [fst].
  assert (Hy : (f (fst y) (snd y) g == f' (fst y) (snd y) g')%Q).
  { apply Hsame. apply Hinc. left. reflexivity. }
  rewrite (Qgtb_equal _ _ _ _ Hy Hq).
  destruct (Qgtb (f' (fst y) (snd y) g') q').
  - apply IH; [exact Hy |]. intros x Hx. apply Hinc. right. exact Hx.
  - apply IH; [exact Hq |]. intros x Hx. apply Hinc. right. exact Hx.
Qed.

(** The two scans select the same pair. *)
Lemma find_pair_same its fm p :
  StronglySorted lt its ->
  find_pair (pure_score f) its g = (Return (fm, p), g) ->
  exists fm', find_pair (pure_score f') its g' = (Return (fm', p), g').
Proof.
  intros Hs H. rewrite find_pair_pure in H. rewrite find_pair_pure.
  assert (E : snd (scan_pairs f g (all_pairs its) ((-1 # 1)%Q, None)) =
              snd (scan_pairs f' g' (all_pairs its) ((-1 # 1)%Q, None))).
  { apply scan_pairs_same; [apply Qeq_refl |].
    intros [A B] Hin. apply (all_pairs_In_sorted _ _ _ Hs) in Hin.
    simpl. tauto. }
  rewrite <- E.
  replace (snd (scan_pairs f g (all_pairs its) ((-1 # 1)%Q, None))) with p
    by congruence.
  eexists. reflexivity.
Qed.

Lemma merges_of_iteration h F0 qubits tr s :
  merges_of F0 h qubits tr s -> iteration F0 h qubits (length tr) s.
Proof.
  induction 1 as [| tr s fmax A B its' _ IH Hlen Hfind Hmerge].
  - apply iteration_first.
  - rewrite length_app, Nat.add_1_r.
    apply (iteration_next _ _ _ _ s); [exact IH |].
    destruct s as [HT its]. simpl in *.
    exact (merge_step_intro _ _ HT its fmax A B its' Hlen Hfind Hmerge).
Qed.

Lemma iteration_merges h F0 qubits k s :
  iteration F0 h qubits k s ->
  exists tr, merges_of F0 h qubits tr s /\ length tr = k.
Proof.
  induction 1 as [| k s s' _ (tr & Htr & Hk) Hstep].
  - exists []. split; [apply merges_none | reflexivity].
  - inversion Hstep as [HT its fmax A B its' Hlen Hfind Hmerge]; subst.
    exists (tr ++ [(A, B)]). split.
    + exact (merges_next _ _ _ tr (mkState HT its) fmax A B its'
               Htr Hlen Hfind Hmerge).
    + rewrite length_app. simpl. lia.
Qed.

(** A sequence of merges under the first scores is one under the second. *)
Lemma merges_of_transfer qubits tr s :
  merges_of f g qubits tr s -> merges_of f' g' qubits tr s.
Proof.
  induction 1 as [| tr s fmax A B its' Hm IH Hlen Hfind Hmerge].
  - apply merges_none.
  - destruct (iteration_inv _ _ _ _ _ (merges_of_iteration _ _ _ _ _ Hm))
      as (Hinv & _).
    destruct (find_pair_same _ _ _ (inv_sorted _ _ Hinv) Hfind)
      as (fm' & Hfind').
    apply (merges_next _ _ _ tr s fm' A B its' IH Hlen Hfind').
    exact (merge_items_any_graph _ _ _ _ _ _ _ g' Hmerge).
Qed.

(** Two sequences of merges of the same length under the same scores are
    the same sequence and end in the same state. *)
Lemma merges_of_functional h F0 qubits tr s :
  merges_of F0 h qubits tr s ->
  forall tr' s', merges_of F0 h qubits tr' s' ->
    length tr = length tr' -> tr = tr' /\ s = s'.
Proof.
  induction 1 as [| tr s fmax A B its' Hm IH Hlen Hfind Hmerge];
    intros tr' s' H' Hl;
    destruct H' as [| tr' s' fmax' A' B' its0 Hm' Hlen' Hfind' Hmerge'].
  - auto.
  - rewrite length_app in Hl. simpl in Hl. lia.
  - rewrite length_app in Hl. simpl in Hl. lia.
  - rewrite !length_app in Hl. simpl in Hl.
    destruct (IH _ _ Hm' ltac:(lia)) as [-> ->].
    rewrite Hfind in Hfind'. inversion Hfind'; subst.
    rewrite Hmerge in Hmerge'. inversion Hmerge'; subst. auto.
Qed.

Lemma while_loop_same N : forall fuel HT its,
  tree_inv N (mkState HT its) ->
  fst (while_loop (pure_score f) fuel HT its g) =
  fst (while_loop (pure_score f') fuel HT its g').
Proof.
  induction fuel as [| fuel IH]; intros HT its Ht.
  - simpl. destruct (1 <? length its); reflexivity.
  - rewrite !while_loop_S. destruct (1 <? length its); [| reflexivity].
    pose proof (inv_sorted _ _ Ht) as Hs. simpl in Hs.
    destruct (find_pair (pure_score f) its g) as [r h] eqn:Hfind.
    pose proof Hfind as Hp. rewrite find_pair_pure in Hp.
    inversion Hp; subst r h. clear Hp.
    destruct (find_pair_same _ _ _ Hs Hfind) as (fm' & Hfind').
    rewrite (bind_Return _ _ _ _ _ Hfind), (bind_Return _ _ _ _ _ Hfind').
    cbn [snd].
    destruct (snd (scan_pairs f g (all_pairs its) ((-1 # 1)%Q, None)))
      as [[A B] |] eqn:Ep; [| reflexivity].
    destruct (find_pair_sorted_items _ _ _ _ _ _ _ Hs Hfind)
      as (HA & HB & HAB).
    assert (Hnd : NoDup its) by exact (StronglySorted_lt_NoDup _ Hs).
    rewrite (bind_Return _ _ _ _ _
               (merge_items_eq g HT its A B Hnd HA HB ltac:(lia))).
    rewrite (bind_Return _ _ _ _ _
               (merge_items_eq g' HT its A B Hnd HA HB ltac:(lia))).
    apply IH. apply tree_inv_merge; auto. lia.
Qed.
End SameScores.

(** What a merge was selected for: it came last in a sequence of merges,
    and at the state before it the pair had the greatest score and, among
    the pairs with that score, the least identifiers. *)
Lemma last_merge_selected f g qubits tr s A B :
  merges_of f g qubits (tr ++ [(A, B)]) s ->
  exists s0,
    merges_of f g qubits tr s0 /\
    In A (items s0) /\ In B (items s0) /\ A < B /\
    forall A' B', In A' (items s0) -> In B' (items s0) -> A' < B' ->
      (f A' B' g <= f A B g)%Q /\
      ((f A' B' g == f A B g)%Q -> lex_le (A, B) (A', B')).
Proof.
  intros H. remember (tr ++ [(A, B)]) as t eqn:Et.
  destruct H as [| tr0 s0 fmax A0 B0 its' Hm Hlen Hfind Hmerge].
  - destruct tr; discriminate Et.
  - apply app_inj_tail in Et. destruct Et as [-> E]. inversion E; subst.
    exists s0. split; [exact Hm |].
    destruct (iteration_inv _ _ _ _ _ (merges_of_iteration _ _ _ _ _ Hm))
      as (Hinv & _).
    destruct (find_pair_selected f g _ _ _ _ (inv_sorted _ _ Hinv) Hfind)
      as (HA & HB & HAB & _ & _ & Hmax & Hlex).
    repeat split; auto.
Qed.

(** C5: two invocations of [generate_hierarchy_tree] on the same qubit
    count, whose score functions only read the coupling graph and give
    equal scores to every pair of items (in particular the same pure
    function invoked twice on the same coupling graph), return identical
    trees: both return the tree reached by one and the same sequence of
    merges; any two of their sequences of merges of the same length are
    the same pairs in the same order and reach the same state; and every
    tie is broken the same way, the merged pair being the one of greatest
    score with the lexicographically least identifiers. *)
Theorem same_scores_same_merges f f' g g' qubits :
  (forall A B, A < B -> (f A B g == f' A B g')%Q) ->
  (exists tr s,
      merges_of f g qubits tr s /\ merges_of f' g' qubits tr s /\
      generate_hierarchy_tree (pure_score f) qubits g = (Return (tree s), g) /\
      generate_hierarchy_tree (pure_score f') qubits g' =
        (Return (tree s), g')) /\
  (forall tr tr' s s',
      merges_of f g qubits tr s -> merges_of f' g' qubits tr' s' ->
      length tr = length tr' -> tr = tr' /\ s = s') /\
  (forall tr s A B,
      merges_of f g qubits (tr ++ [(A, B)]) s ->
      exists s0,
        merges_of f g qubits tr s0 /\ merges_of f' g' qubits tr s0 /\
        In A (items s0) /\ In B (items s0) /\ A < B /\
        forall A' B', In A' (items s0) -> In B' (items s0) -> A' < B' ->
          (f A' B' g <= f A B g)%Q /\
          ((f A' B' g == f A B g)%Q -> lex_le (A, B) (A', B'))).
Proof.
  intros Hsame. split; [| split].
  - destruct (run_to_stop f g qubits (Z.to_nat qubits) 0
                (initial_state qubits) (iteration_first f g qubits))
      as (k & s & Hit & _ & Hrun).
    { destruct (iteration_inv f g qubits 0 _ (iteration_first f g qubits))
        as (_ & _ & Hlen). lia. }
    destruct (iteration_merges _ _ _ _ _ Hit) as (tr & Htr & _).
    exists tr, s. split; [exact Htr |].
    split; [exact (merges_of_transfer f f' g g' Hsame _ _ _ Htr) |].
    split; [exact Hrun |].
    pose proof (while_loop_same f f' g g' Hsame (Z.to_nat qubits)
                  (Z.to_nat qubits) _ _ (tree_inv_initial qubits)) as Hfst.
    pose proof (reads_only_while_loop (pure_score f') (Z.to_nat qubits)
                  (reads_only_pure_score f') (initial_tree qubits)
                  (node_ids (initial_tree qubits)) g') as Hsnd.
    unfold generate_hierarchy_tree, generate_hierarchy_tree_fuel.
    cbn [tree items initial_state] in Hfst, Hrun.
    rewrite Hrun in Hfst. cbn [fst] in Hfst.
    destruct (while_loop (pure_score f') (Z.to_nat qubits)
                (initial_tree qubits) (node_ids (initial_tree qubits)) g')
      as [r h]. simpl in Hfst, Hsnd. subst. reflexivity.
  - intros tr tr' s s' H H' Hl.
    apply (merges_of_functional g' f' qubits tr s
             (merges_of_transfer f f' g g' Hsame _ _ _ H) tr' s' H' Hl).
  - intros tr s A B H.
    destruct (last_merge_selected f g qubits tr s A B H)
      as (s0 & Hm & HA & HB & HAB & Hsel).
    exists s0. split; [exact Hm |].
    split; [exact (merges_of_transfer f f' g g' Hsame _ _ _ Hm) |].
    repeat split; try assumption; apply Hsel; assumption.
Qed.

Lemma same_scores_same_merges_witness :
  (forall A B, A < B ->
     (const_score 0 A B isolated4 == const_score (0 # 7) A B isolated4)%Q) /\
  exists tr s,
    merges_of (const_score 0) isolated4 4 tr s /\
    merges_of (const_score (0 # 7)) isolated4 4 tr s /\
    generate_hierarchy_tree (pure_score (const_score 0)) 4 isolated4 =
      (Return (tree s), isolated4) /\
    generate_hierarchy_tree (pure_score (const_score (0 # 7))) 4 isolated4 =
      (Return (tree s), isolated4).
Proof.
  assert (H : forall A B, A < B ->
            (const_score 0 A B isolated4
             == const_score (0 # 7) A B isolated4)%Q)
    by (intros A B _; reflexivity).
  split; [exact H |].
  exact (proj1 (same_scores_same_merges (const_score 0) (const_score (0 # 7))
                  isolated4 isolated4 4 H)).
Defined.
